(** * MCQ study tool: ingestion and answer-checking core

    A shallow embedding of the question-import pipeline and of the
    answer-correctness checks of the application, with the properties its
    specification states about them.

    Text is modelled as [string]: a sequence of code units below 256
    (the Latin-1 range of a JavaScript string), on which [trim],
    [toLowerCase] and the character classes of the regular expressions are
    the ones JavaScript computes.  A JavaScript [undefined] is [None]. *)

From Stdlib Require Import Strings.String Strings.Ascii Lists.List ZArith.ZArith
  NArith.NArith Bool.Bool Arith.PeanoNat Numbers.DecimalString Numbers.DecimalNat Sorting.Permutation micromega.Lia.
Import ListNotations.

Open Scope string_scope.
Open Scope list_scope.
Open Scope bool_scope.

(** ** JavaScript string primitives *)

Module JS.

Definition code (c : ascii) : N := N_of_ascii c.

Definition inRange (lo hi : N) (c : ascii) : bool :=
  ((lo <=? code c) && (code c <=? hi))%N.

(** [\n] and [\r]: the line terminators below 256. *)
Definition isLineTerminator (c : ascii) : bool :=
  ((code c =? 10) || (code c =? 13))%N.

(** The regular-expression class [\s], which is also what [trim] removes:
    TAB, LF, VT, FF, CR, SPACE and NBSP. *)
Definition isWhiteSpace (c : ascii) : bool :=
  (inRange 9 13 c || (code c =? 32) || (code c =? 160))%N.

Fixpoint dropWhile {A} (p : A -> bool) (l : list A) : list A :=
  match l with
  | [] => []
  | x :: t => if p x then dropWhile p t else l
  end.

Definition trimList (l : list ascii) : list ascii :=
  rev (dropWhile isWhiteSpace (rev (dropWhile isWhiteSpace l))).

(** [String.prototype.trim] *)
Definition trim (s : string) : string :=
  string_of_list_ascii (trimList (list_ascii_of_string s)).

(** Case mapping of one code unit: ASCII letters and the Latin-1 letters
    [U+00C0]..[U+00DE] (without the multiplication sign). *)
Definition lowerChar (c : ascii) : ascii :=
  if inRange 65 90 c || (inRange 192 222 c && negb (code c =? 215)%N)
  then ascii_of_N (code c + 32) else c.

(** The upper-case form of a code unit that has one below 256; the answer
    check applies it to the letters A-D and a-d only. *)
Definition upperChar (c : ascii) : ascii :=
  if inRange 97 122 c || (inRange 224 254 c && negb (code c =? 247)%N)
  then ascii_of_N (code c - 32) else c.

(** [String.prototype.toLowerCase] *)
Definition toLowerCase (s : string) : string :=
  string_of_list_ascii (map lowerChar (list_ascii_of_string s)).

(** A string is truthy when it is not empty. *)
Definition truthy (s : string) : bool :=
  match s with EmptyString => false | _ => true end.

(** Truthiness of a possibly undefined string. *)
Definition truthyOpt (o : option string) : bool :=
  match o with Some s => truthy s | None => false end.

(** [a || b] on possibly undefined strings. *)
Definition orElse (a b : option string) : option string :=
  if truthyOpt a then a else b.

Fixpoint prefixb (p s : list ascii) : bool :=
  match p, s with
  | [], _ => true
  | a :: p', b :: s' => Ascii.eqb a b && prefixb p' s'
  | _ :: _, [] => false
  end.

Fixpoint includesList (s p : list ascii) : bool :=
  prefixb p s || match s with [] => false | _ :: t => includesList t p end.

(** [s.includes(p)] *)
Definition includes (s p : string) : bool :=
  includesList (list_ascii_of_string s) (list_ascii_of_string p).

(** [arr[i]] for an integer index: [undefined] outside the array. *)
Definition at_ {A} (arr : list A) (i : Z) : option A :=
  if (i <? 0)%Z then None else nth_error arr (Z.to_nat i).

(** [v === s] for a possibly undefined [v] and a string [s]. *)
Definition strictEq (v : option string) (s : string) : bool :=
  match v with Some o => String.eqb o s | None => false end.

Fixpoint indexOfFrom (arr : list string) (x : string) (i : Z) : Z :=
  match arr with
  | [] => (-1)%Z
  | y :: t => if String.eqb y x then i else indexOfFrom t x (i + 1)%Z
  end.

(** [Array.prototype.indexOf]: the first position, or -1. *)
Definition indexOf (arr : list string) (x : string) : Z := indexOfFrom arr x 0%Z.

End JS.

(** ** Regular expressions of the answer check *)

Module Re.
Import JS.

(** One letter of a pattern under the [i] flag: the letter itself or its
    lower-case form (no code unit of the Latin-1 range above 127 folds to
    an ASCII letter). *)
Definition ciChar (p c : ascii) : bool :=
  Ascii.eqb c p || Ascii.eqb c (lowerChar p).

(** The literal [Option] under the [i] flag, at the head of the text;
    the rest of the text when it matches. *)
Fixpoint literalCI (pat s : list ascii) : option (list ascii) :=
  match pat, s with
  | [], _ => Some s
  | p :: pat', c :: s' => if ciChar p c then literalCI pat' s' else None
  | _ :: _, [] => None
  end.

Definition OPTION : list ascii := list_ascii_of_string "OPTION".

(** [[A-D]] under the [i] flag. *)
Definition classAD (c : ascii) : bool := inRange 65 68 c || inRange 97 100 c.
(** [[1-4]] *)
Definition class14 (c : ascii) : bool := inRange 49 52 c.
(** [\d] *)
Definition classDigit (c : ascii) : bool := inRange 48 57 c.

(** [/^Option\s?C$/i.test(s)] for a character class [C]. *)
Definition testAnchored (cls : ascii -> bool) (s : string) : bool :=
  match literalCI OPTION (list_ascii_of_string s) with
  | Some [c] => cls c
  | Some [w; c] => isWhiteSpace w && cls c
  | _ => false
  end.

(** [Option\s?(C)] tried at the head of the text; the captured character.
    The optional [\s] is greedy and gives its character back when the
    class does not follow. *)
Definition captureAt (cls : ascii -> bool) (s : list ascii) : option ascii :=
  match literalCI OPTION s with
  | Some (c :: rest) =>
      let direct := if cls c then Some c else None in
      if isWhiteSpace c then
        match rest with
        | d :: _ => if cls d then Some d else direct
        | [] => direct
        end
      else direct
  | _ => None
  end.

(** [s.match(/Option\s?(C)/i)]: the leftmost match, its capture group. *)
Fixpoint captureList (cls : ascii -> bool) (s : list ascii) : option ascii :=
  match captureAt cls s with
  | Some c => Some c
  | None => match s with [] => None | _ :: t => captureList cls t end
  end.

Definition capture (cls : ascii -> bool) (s : string) : option ascii :=
  captureList cls (list_ascii_of_string s).

(** [/^[A-D]$/i.test(s)] *)
Definition testBareLetter (s : string) : bool :=
  match s with
  | String c EmptyString => classAD c
  | _ => false
  end.

End Re.

(** ** Answer check of the practice page and of the question card *)

Module Resolver.
Import JS Re.

(** [ch.toUpperCase().charCodeAt(0) - 65] *)
Definition letterIndex (c : ascii) : Z := (Z.of_N (code (upperChar c)) - 65)%Z.

(** [parseInt(d) - 1] for a captured digit [d]. *)
Definition digitIndex (d : ascii) : Z := (Z.of_N (code d) - 48 - 1)%Z.

(** The index computed inside case 1 of both implementations: it starts
    at -1, the letter capture is tried first, then the digit capture. *)
Definition labeledIndex (correctText : string) : Z :=
  match capture classAD correctText with
  | Some c => letterIndex c
  | None =>
      match capture classDigit correctText with
      | Some d => digitIndex d
      | None => (-1)%Z
      end
  end.

(** [correctText.toUpperCase().charCodeAt(0) - 65] of case 2. *)
Definition bareIndex (correctText : string) : Z :=
  match correctText with
  | String c _ => letterIndex c
  | EmptyString => (-66)%Z   (* NaN - 65: never an index; case 2 excludes it *)
  end.

Definition isLabeled (correctText : string) : bool :=
  testAnchored classAD correctText || testAnchored class14 correctText.

(** Practice page, statistics loop: the value of [isCorrect] for a
    question with the given [correctAnswer] and [options] and the recorded
    answer [ans]. *)
Definition statsIsCorrect (correctAnswer : string) (options : list string)
           (ans : string) : bool :=
  let correctText := trim correctAnswer in
  if isLabeled correctText then
    let index := labeledIndex correctText in
    (0 <=? index)%Z && strictEq (at_ options index) ans
  else if testBareLetter correctText then
    let correctIndex := bareIndex correctText in
    strictEq (at_ options correctIndex) ans
  else
    String.eqb (toLowerCase (trim ans)) (toLowerCase correctText).

(** Question card: [isOptionCorrect(optionText, index)]. *)
Definition isOptionCorrect (correctAnswer : string) (optionText : string)
           (index : Z) : bool :=
  let correctText := trim correctAnswer in
  if isLabeled correctText then
    let correctIndex := labeledIndex correctText in
    (index =? correctIndex)%Z
  else if testBareLetter correctText then
    let correctIndex := bareIndex correctText in
    (index =? correctIndex)%Z
  else if String.eqb (toLowerCase (trim optionText)) (toLowerCase correctText)
  then true
  else false.

(** Question card: [isSelectedCorrect] for a selected option that is a
    non-empty text. *)
Definition cardIsCorrect (correctAnswer : string) (options : list string)
           (selectedOption : string) : bool :=
  let idx := indexOf options selectedOption in
  isOptionCorrect correctAnswer selectedOption idx.

(** Question card: [isSelectedCorrect], with the guard on an absent or
    empty selection. *)
Definition isSelectedCorrect (correctAnswer : string) (options : list string)
           (selectedOption : option string) : bool :=
  match selectedOption with
  | Some sel => if truthy sel then cardIsCorrect correctAnswer options sel else false
  | None => false
  end.

(** Practice page: what one answered question adds to
    [(stats.correct, stats.incorrect)]. *)
Definition statsStep (correctAnswer : string) (options : list string)
           (ans : option string) (st : nat * nat) : nat * nat :=
  match ans with
  | Some a =>
      if truthy a then
        if statsIsCorrect correctAnswer options a
        then (S (fst st), snd st) else (fst st, S (snd st))
      else st
  | None => st
  end.

End Resolver.

(** ** Deduplicator *)

Module Dedup.
Import JS.

(** Membership in the [Set] of keys seen so far. *)
Definition has (seen : list string) (k : string) : bool :=
  existsb (String.eqb k) seen.

(** The filter callback run over the list, threading the [seen] set:
    an element whose key was seen is dropped, any other is kept and its
    key added. *)
Fixpoint filterSeen (key : string -> string) (seen : list string)
         (l : list string) : list string :=
  match l with
  | [] => []
  | opt :: t =>
      let normalized := key opt in
      if has seen normalized then filterSeen key seen t
      else opt :: filterSeen key (normalized :: seen) t
  end.

(** The importer's key: [opt.trim().toLowerCase()]. *)
Definition importKey (opt : string) : string := toLowerCase (trim opt).

(** The OCR cleaner's key: [opt.toLowerCase()], on options it has
    trimmed before. *)
Definition cleanKey (opt : string) : string := toLowerCase opt.

(** [deduplicatedOptions] of the importer. *)
Definition deduplicatedOptions (options : list string) : list string :=
  filterSeen importKey [] options.

(** The de-duplication inside [validateAndCleanQuestions]. *)
Definition cleanDedup (options : list string) : list string :=
  filterSeen cleanKey [] (map trim options).

(** Equality of two texts under case-insensitive comparison. *)
Definition ciEqual (a b : string) : Prop := toLowerCase a = toLowerCase b.

End Dedup.

(** ** Questions and topics *)

Record Question := mkQuestion {
  q_id : string;
  q_no : option string;
  q_question : string;
  q_options : list string;
  q_correctAnswer : string;
  q_explanation : option string;
  q_topic : option string;
  q_pageNo : option string
}.

Record Topic := mkTopic {
  t_id : string;
  t_name : string;
  t_questions : list Question
}.

(** ** Tabular import: [parseCSV] *)

Module Importer.
Import JS Dedup.

(** One parsed row: the cells by header, in the order [Object.keys]
    lists them. *)
Definition Row := list (string * string).

Definition keys (row : Row) : list string := map fst row.

(** [row[k]] *)
Fixpoint get (row : Row) (k : string) : option string :=
  match row with
  | [] => None
  | (k', v) :: t => if String.eqb k' k then Some v else get t k
  end.

Definition fuzzyMatches (target k : string) : bool :=
  let keyLower := toLowerCase k in
  let targetLower := toLowerCase target in
  if String.eqb targetLower "question"
     && (includes keyLower "no" || includes keyLower "id" || includes keyLower "number")
  then false
  else includes keyLower targetLower.

Definition fuzzyVal (row : Row) (target : string) : option string :=
  match find (fuzzyMatches target) (keys row) with
  | Some fuzzyKey => if truthy fuzzyKey then get row fuzzyKey else None
  | None => None
  end.

(** [getVal(target)]: the exact header, compared trimmed and without
    case, then the first header that contains the target. *)
Definition getVal (row : Row) (target : string) : option string :=
  match find (fun k => String.eqb (toLowerCase (trim k)) (toLowerCase target))
             (keys row) with
  | Some exactKey => if truthy exactKey then get row exactKey else fuzzyVal row target
  | None => fuzzyVal row target
  end.

Definition optionLabels : list string := ["Option A"; "Option B"; "Option C"; "Option D"].
Definition legacyLabels : list string := ["Option1"; "Option2"; "Option3"; "Option4"].
Definition letterLabels : list string := ["A"; "B"; "C"; "D"].

(** One [forEach] over labels that pushes every truthy value [look]
    finds. *)
Definition pushAll (look : string -> option string) (labels : list string)
           (options : list string) : list string :=
  fold_left (fun acc optKey =>
               match look optKey with
               | Some v => if truthy v then acc ++ [v] else acc
               | None => acc
               end) labels options.

(** The first [forEach], which also raises [foundStandardOptions]. *)
Definition pushStandard (row : Row) : list string * bool :=
  fold_left (fun st optKey =>
               match get row optKey with
               | Some v => if truthy v then (fst st ++ [v], true) else st
               | None => st
               end) optionLabels ([], false).

(** The four attempts, as the code sequences them on the mutable
    [options]. *)
Definition rawOptions (row : Row) : list string :=
  let '(options, foundStandardOptions) := pushStandard row in
  let options :=
    if negb foundStandardOptions || (length options =? 0)%nat
    then pushAll (get row) legacyLabels []
    else options in
  let options :=
    if (length options =? 0)%nat then pushAll (get row) letterLabels options
    else options in
  let options :=
    if (length options =? 0)%nat then pushAll (getVal row) optionLabels options
    else options in
  options.

(** [o && o.toString().trim().length > 0] *)
Definition notBlank (o : string) : bool :=
  truthy o && (0 <? String.length (trim o))%nat.

Definition rowOptions (row : Row) : list string :=
  deduplicatedOptions (filter notBlank (rawOptions row)).

(** [/\.(csv|txt|xlsx|xls)$/i]: the text before a recognised extension. *)
Fixpoint stripExtList (s : list ascii) : list ascii :=
  match Re.literalCI [Ascii.ascii_of_nat 46] s with
  | Some ext =>
      match Re.literalCI (list_ascii_of_string "CSV") ext,
            Re.literalCI (list_ascii_of_string "TXT") ext,
            Re.literalCI (list_ascii_of_string "XLSX") ext,
            Re.literalCI (list_ascii_of_string "XLS") ext with
      | Some [], _, _, _ | _, Some [], _, _ | _, _, Some [], _ | _, _, _, Some [] => []
      | _, _, _, _ => match s with [] => [] | c :: t => c :: stripExtList t end
      end
  | None => match s with [] => [] | c :: t => c :: stripExtList t end
  end.

Definition stripExt (sourceName : string) : string :=
  string_of_list_ascii (stripExtList (list_ascii_of_string sourceName)).

(** [String(index + 1)] *)
Definition rowLabel (index : nat) : string :=
  NilEmpty.string_of_uint (Nat.to_uint (index + 1)).

(** What the callback of [results.data.forEach] does with one row. *)
Inductive RowResult :=
| Skip
| Keep (q : Question).

Definition normalize (uuid : string) (sourceName : string) (index : nat)
           (row : Row) : RowResult :=
  match getVal row "Question" with
  | None => Skip
  | Some questionText =>
      if negb (truthy questionText) then Skip
      else
        let deduplicated := rowOptions row in
        if (length deduplicated <? 2)%nat then Skip
        else
          let topicName :=
            orElse (orElse (get row "Topic") (getVal row "Topic"))
                   (Some (stripExt sourceName)) in
          let correctVal :=
            orElse (orElse (orElse (get row "Correct Answer") (getVal row "Correct Answer"))
                           (getVal row "Correct"))
                   (getVal row "Answer") in
          let explanationVal := orElse (get row "Explanation") (getVal row "Explanation") in
          Keep {| q_id := uuid;
                  q_no := orElse (get row "Question No.") (Some (rowLabel index));
                  q_question := questionText;
                  q_options := deduplicated;
                  q_correctAnswer :=
                    match orElse correctVal (nth_error deduplicated 0) with
                    | Some c => c
                    | None => EmptyString
                    end;
                  q_explanation := explanationVal;
                  q_topic := topicName;
                  q_pageNo := None |}
  end.

(** The state of the loop over the rows: the questions pushed so far,
    [skippedCount], and the number of identifiers drawn. *)
Record LoopState := mkLoop {
  processedQuestions : list Question;
  skippedCount : nat;
  drawn : nat
}.

Definition loopStart : LoopState := mkLoop [] 0 0.

Section WithIds.
(** [uuid n] is the value of the n-th call of [uuidv4()]. *)
Variable uuid : nat -> string.
Variable sourceName : string.

Definition step (st : LoopState) (indexed : nat * Row) : LoopState :=
  match normalize (uuid (drawn st)) sourceName (fst indexed) (snd indexed) with
  | Skip => mkLoop (processedQuestions st) (S (skippedCount st)) (drawn st)
  | Keep q => mkLoop (processedQuestions st ++ [q]) (skippedCount st) (S (drawn st))
  end.

Fixpoint indexFrom (i : nat) (rows : list Row) : list (nat * Row) :=
  match rows with
  | [] => []
  | r :: t => (i, r) :: indexFrom (S i) t
  end.

Definition processFrom (st : LoopState) (i : nat) (rows : list Row) : LoopState :=
  fold_left step (indexFrom i rows) st.

Definition processRows (rows : list Row) : LoopState :=
  processFrom loopStart 0 rows.
End WithIds.

(** *** Grouping by topic and hand-over to [onImport] *)

(** Names that every object inherits: [questionsByTopic[name]] is truthy
    for them before any group exists, and is not an array. *)
Definition inheritedNames : list string :=
  ["constructor"; "toString"; "toLocaleString"; "valueOf"; "hasOwnProperty";
   "isPrototypeOf"; "propertyIsEnumerable"; "__proto__"; "__defineGetter__";
   "__defineSetter__"; "__lookupGetter__"; "__lookupSetter__"].

Definition Groups := list (string * list Question).

Fixpoint pushTo (groups : Groups) (name : string) (q : Question) : option Groups :=
  match groups with
  | [] => None
  | (n, qs) :: t =>
      if String.eqb n name then Some ((n, qs ++ [q]) :: t)
      else match pushTo t name q with
           | Some t' => Some ((n, qs) :: t')
           | None => None
           end
  end.

(** [q.topic || "General"] *)
Definition finalTopic (q : Question) : string :=
  match orElse (q_topic q) (Some "General") with
  | Some n => n
  | None => "General"
  end.

(** One turn of the grouping loop; [None] when [push] is called on an
    inherited property, which throws a [TypeError]. *)
Definition groupStep (groups : option Groups) (q : Question) : option Groups :=
  match groups with
  | None => None
  | Some g =>
      let name := finalTopic q in
      match pushTo g name q with
      | Some g' => Some g'
      | None =>
          if existsb (String.eqb name) inheritedNames then None
          else Some (g ++ [(name, [q])])
      end
  end.

Definition questionsByTopic (qs : list Question) : option Groups :=
  fold_left groupStep qs (Some []).

(** The value of a property name that is an array index
    (a canonical decimal numeral below 2^32 - 1). *)
Definition digitsValue (s : list ascii) : option N :=
  fold_left (fun acc c =>
               match acc with
               | Some n => if Re.classDigit c then Some (n * 10 + (code c - 48))%N else None
               | None => None
               end) s (Some 0%N).

Definition arrayIndex (name : string) : option N :=
  match list_ascii_of_string name with
  | [] => None
  | c :: t =>
      if (code c =? 48)%N && negb (length t =? 0)%nat then None
      else match digitsValue (c :: t) with
           | Some n => if (n <? 4294967295)%N then Some n else None
           | None => None
           end
  end.

Fixpoint insertByIndex (e : N * (string * list Question))
         (l : list (N * (string * list Question))) :=
  match l with
  | [] => [e]
  | h :: t => if (fst e <? fst h)%N then e :: l else h :: insertByIndex e t
  end.

(** [Object.entries]: array-index names first, in ascending order, then
    the other names in the order they were created. *)
Definition entries (g : Groups) : Groups :=
  let indexed :=
    fold_right (fun e acc => match arrayIndex (fst e) with
                             | Some n => insertByIndex (n, e) acc
                             | None => acc
                             end) [] g in
  map snd indexed
  ++ filter (fun e => match arrayIndex (fst e) with Some _ => false | None => true end) g.

Fixpoint topicsFrom (uuid : nat -> string) (n : nat) (g : Groups) : list Topic :=
  match g with
  | [] => []
  | (name, qs) :: t => mkTopic (uuid n) name qs :: topicsFrom uuid (S n) t
  end.

(** How the [complete] callback ends. *)
Inductive Outcome :=
| InvalidFormat                       (* toast [Invalid Format] *)
| NoQuestionsFound                    (* toast [No Questions Found] *)
| Threw                               (* [TypeError] inside the grouping loop *)
| Imported (topics : list Topic) (imported skipped : nat).

(** The topics handed to [onImport]. *)
Definition emitted (o : Outcome) : list Topic :=
  match o with
  | Imported topics _ _ => topics
  | _ => []
  end.

(** The import proper: from [processedQuestions] on. *)
Definition importSource (uuid : nat -> string) (sourceName : string)
           (rows : list Row) : Outcome :=
  let st := processRows uuid sourceName rows in
  if (length (processedQuestions st) =? 0)%nat then NoQuestionsFound
  else
    match questionsByTopic (processedQuestions st) with
    | None => Threw
    | Some g =>
        Imported (topicsFrom uuid (drawn st) (entries g))
                 (length (processedQuestions st)) (skippedCount st)
    end.

Definition hasQuestion (headers : list string) : bool :=
  existsb (fun h => includes (toLowerCase h) "question") headers.

(** The [complete] callback of [parseCSV]. *)
Definition complete (uuid : nat -> string) (sourceName : string)
           (headers : list string) (rows : list Row) : Outcome :=
  if negb (hasQuestion headers) && (0 <? length headers)%nat then InvalidFormat
  else importSource uuid sourceName rows.

End Importer.


(** ** Recovery of the JSON payload from the model's answer *)

Module Extractor.
Import JS.

Definition LF : ascii := ascii_of_nat 10.
Definition backtick : ascii := ascii_of_nat 96.
Definition fence : list ascii := [backtick; backtick; backtick].
Definition lbrace : ascii := ascii_of_nat 123.
Definition rbrace : ascii := ascii_of_nat 125.
Definition rbracket : ascii := ascii_of_nat 93.
Definition comma : ascii := ascii_of_nat 44.

(** [(?:json)?] *)
Definition skipJson (s : list ascii) : list ascii :=
  if prefixb (list_ascii_of_string "json") s then skipn 4 s else s.

(** [jsonStr.replace(/^```(?:json)?\s*\n?/m, '')]: the first fence that
    begins a line goes, with the tag and the white space after it.
    [lineStart] tells whether [^] holds at the head of [s]. *)
Fixpoint stripOpenFrom (lineStart : bool) (s : list ascii) : list ascii :=
  match s with
  | [] => []
  | c :: t =>
      if lineStart && prefixb fence s
      then dropWhile isWhiteSpace (skipJson (skipn 3 s))
      else c :: stripOpenFrom (isLineTerminator c) t
  end.

Definition stripOpen (s : list ascii) : list ascii := stripOpenFrom true s.

Fixpoint takeWhile {A} (p : A -> bool) (l : list A) : list A :=
  match l with
  | [] => []
  | x :: t => if p x then x :: takeWhile p t else []
  end.

(** The part of a white-space run from its last line terminator on. *)
Fixpoint fromLastTerminator (run : list ascii) : option (list ascii) :=
  match run with
  | [] => None
  | c :: t =>
      match fromLastTerminator t with
      | Some r => Some r
      | None => if isLineTerminator c then Some run else None
      end
  end.

(** [\s*$] under the [m] flag, tried after a fence: what is left of the
    text behind the match.  The run of white space is taken whole when it
    reaches the end of the text, and otherwise given back down to its
    last line terminator. *)
Definition closeTail (r : list ascii) : option (list ascii) :=
  let run := takeWhile isWhiteSpace r in
  let after := dropWhile isWhiteSpace r in
  match after with
  | [] => Some []
  | _ :: _ =>
      match fromLastTerminator run with
      | Some rest => Some (rest ++ after)
      | None => None
      end
  end.

(** [jsonStr.replace(/\n?```\s*$/m, '')]: the leftmost fence that is
    followed by nothing but white space up to the end of its line. *)
Fixpoint stripClose (s : list ascii) : list ascii :=
  match s with
  | [] => []
  | c :: t =>
      let viaNewline :=
        if Ascii.eqb c LF && prefixb fence t then closeTail (skipn 3 t) else None in
      let direct :=
        if prefixb fence s then closeTail (skipn 3 s) else None in
      match viaNewline, direct with
      | Some r, _ => r
      | None, Some r => r
      | None, None => c :: stripClose t
      end
  end.

Fixpoint indexOfChar (x : ascii) (s : list ascii) (i : Z) : Z :=
  match s with
  | [] => (-1)%Z
  | c :: t => if Ascii.eqb c x then i else indexOfChar x t (i + 1)%Z
  end.

Fixpoint lastIndexOfChar (x : ascii) (s : list ascii) (i : Z) : Z :=
  match s with
  | [] => (-1)%Z
  | c :: t =>
      let later := lastIndexOfChar x t (i + 1)%Z in
      if (0 <=? later)%Z then later
      else if Ascii.eqb c x then i else (-1)%Z
  end.

(** [s.substring(a, b)] for [0 <= a <= b]. *)
Definition substring (a b : Z) (s : list ascii) : list ascii :=
  firstn (Z.to_nat (b - a)) (skipn (Z.to_nat a) s).

Definition closerFollows (rest : list ascii) : bool :=
  match dropWhile isWhiteSpace rest with
  | c :: _ => Ascii.eqb c rbrace || Ascii.eqb c rbracket
  | [] => false
  end.

(** [jsonStr2.replace(/,(\s*[\}\]])/g, '$1')].  A match holds no comma
    after its first character, so the scan may resume right behind the
    comma it drops. *)
Fixpoint removeTrailingCommas (s : list ascii) : list ascii :=
  match s with
  | [] => []
  | c :: t =>
      if Ascii.eqb c comma && closerFollows t then removeTrailingCommas t
      else c :: removeTrailingCommas t
  end.

(** The text after trimming and fence removal. *)
Definition unfenced (responseText : string) : list ascii :=
  stripClose (stripOpen (list_ascii_of_string (trim responseText))).

(** From the unfenced text to the text handed to [JSON.parse]; [None]
    when the braces are not found in order. *)
Definition payloadOf (jsonStr : list ascii) : option string :=
  let firstBrace := indexOfChar lbrace jsonStr 0 in
  let lastBrace := lastIndexOfChar rbrace jsonStr 0 in
  if (firstBrace =? -1)%Z || (lastBrace =? -1)%Z || (lastBrace <=? firstBrace)%Z
  then None
  else Some (string_of_list_ascii
               (removeTrailingCommas (substring firstBrace (lastBrace + 1) jsonStr))).

Definition payload (responseText : string) : option string :=
  payloadOf (unfenced responseText).

(** [responseText.substring(0, n)] *)
Definition excerpt (n : nat) (responseText : string) : string :=
  string_of_list_ascii (firstn n (list_ascii_of_string responseText)).

#[local] Set Warnings "-register-all".

(** A parsed JSON value.  Of a number only its being zero matters to the
    code; integers stand for all of them. *)
Inductive json :=
| JNull
| JBool (b : bool)
| JNum (n : Z)
| JStr (s : string)
| JArr (items : list json)
| JObj (fields : list (string * json)).

Fixpoint field (fields : list (string * json)) (k : string) : option json :=
  match fields with
  | [] => None
  | (k', v) :: t => if String.eqb k' k then Some v else field t k
  end.

(** [v.questions] for a value that is not [null]. *)
Definition questionsOf (v : json) : option json :=
  match v with
  | JObj fields => field fields "questions"
  | _ => None
  end.

Definition truthyJson (v : option json) : bool :=
  match v with
  | None | Some JNull => false
  | Some (JBool b) => b
  | Some (JNum n) => negb (n =? 0)%Z
  | Some (JStr s) => truthy s
  | Some (JArr _) | Some (JObj _) => true
  end.

Definition isArray (v : option json) : bool :=
  match v with Some (JArr _) => true | _ => false end.

Definition typeof (v : option json) : string :=
  match v with
  | None => "undefined"
  | Some JNull | Some (JArr _) | Some (JObj _) => "object"
  | Some (JBool _) => "boolean"
  | Some (JNum _) => "number"
  | Some (JStr _) => "string"
  end.

(** What the [catch] of the extraction block received. *)
Inductive Thrown :=
| SyntaxError (message : string)   (* thrown by [JSON.parse] *)
| NullAccess.                      (* [result.questions] on [null] *)

(** The outcomes of the extraction, up to the clean-up of the questions.
    [NoJson] and [ParseError] are the two responses the specification
    calls MalformedResponse, [InvalidFormat] is its InvalidShape. *)
Inductive Outcome :=
| NoJson (excerpt200 : string)
| ParseError (error : Thrown) (excerpt150 : string)
| InvalidFormat (gotType : string)
| EmptyQuestions (result : json)
| Extracted (result : json) (questions : list json).

(** The checks that follow a successful parse. *)
Definition checkShape (result : json) : Outcome :=
  let questions := questionsOf result in
  if negb (truthyJson questions) || negb (isArray questions)
  then InvalidFormat (typeof questions)
  else
    match questions with
    | Some (JArr items) =>
        if (length items =? 0)%nat then EmptyQuestions result
        else Extracted result items
    | _ => InvalidFormat (typeof questions)
    end.

Section WithParser.
(** [JSON.parse]: the message of the exception, or the value. *)
Variable JSON_parse : string -> string + json.

Definition extract (responseText : string) : Outcome :=
  match payload responseText with
  | None => NoJson (excerpt 200 responseText)
  | Some jsonStr2 =>
      match JSON_parse jsonStr2 with
      | inl message => ParseError (SyntaxError message) (excerpt 150 responseText)
      | inr JNull => ParseError NullAccess (excerpt 150 responseText)
      | inr result => checkShape result
      end
  end.
End WithParser.

(** The status the extraction block of both handlers sets for its
    outcome.  (Every failure returns at once; after a success the route of
    the server goes on to the clean-up, and the handler of the worker runs
    on to its closing [404] answer.) *)
Definition status (o : Outcome) : nat :=
  match o with
  | Extracted _ _ => 200
  | _ => 400
  end.

(** [response.ok] on the client. *)
Definition ok (o : Outcome) : bool := (status o =? 200)%nat.

End Extractor.

(** ** Clean-up of the extracted questions and the OCR page *)

Module Ocr.
Import JS Dedup.

(** One element of [result.questions], read at the types the prompt
    prescribes: every field may be missing, and a present field is a
    text (a list of texts for [options]), on which [String(x)] is [x]. *)
Record RawItem := mkRaw {
  r_id : option string;
  r_no : option string;
  r_question : option string;
  r_options : option (list string);
  r_correctAnswer : option string;
  r_explanation : option string;
  r_topic : option string;
  r_pageNo : option string
}.

(** [x || d] for a text with a default. *)
Definition orDefault (x : option string) (d : string) : string :=
  match orElse x (Some d) with Some v => v | None => d end.

(** [while (options.length < 4) options.push("")] *)
Definition padTo4 (options : list string) : list string :=
  options ++ repeat EmptyString (4 - length options).

Definition cleanOptions (options : option (list string)) : list string :=
  let options := match options with Some o => o | None => [] end in
  firstn 4 (padTo4 (cleanDedup options)).

Section WithUpperCase.
(** [String.prototype.toUpperCase].  On texts of code units below 256 it is
    not a map of code units to code units: the sharp s becomes two letters,
    and the micro sign and the y with diaeresis become code units above
    255.  The built-in is therefore taken as given, as [JSON.parse] is; it
    only enters the answer of a cleaned question. *)
Variable toUpperCase : string -> string.

Definition cleanQuestion (pageNo : string) (q : RawItem) : Question :=
  {| q_id := orDefault (r_id q) EmptyString;
     q_no := Some (trim (orDefault (r_no q) EmptyString));
     q_question := trim (orDefault (r_question q) EmptyString);
     q_options := cleanOptions (r_options q);
     q_correctAnswer := toUpperCase (trim (orDefault (r_correctAnswer q) "A"));
     q_explanation := Some (trim (orDefault (r_explanation q) EmptyString));
     q_topic := Some (orDefault (r_topic q) EmptyString);
     q_pageNo := Some pageNo |}.

(** [validateAndCleanQuestions(questions, pageNo)] *)
Definition validateAndCleanQuestions (questions : list RawItem) (pageNo : string)
  : list Question :=
  map (cleanQuestion pageNo) questions.
End WithUpperCase.


(** The OCR page: one question of the server's answer made into a
    [Question] of the client. *)
Definition clientQuestion (uuid : string) (q : Question) : Question :=
  {| q_id := uuid;
     q_no := Some (orDefault (q_no q) EmptyString);
     q_question := q_question q;
     q_options := firstn 4 (q_options q);
     q_correctAnswer := q_correctAnswer q;
     q_explanation := q_explanation q;
     q_topic := Some EmptyString;
     q_pageNo := Some (orDefault (q_pageNo q) EmptyString) |}.

Fixpoint clientQuestions (uuid : nat -> string) (n : nat) (qs : list Question)
  : list Question :=
  match qs with
  | [] => []
  | q :: t => clientQuestion (uuid n) q :: clientQuestions uuid (S n) t
  end.


End Ocr.

(** ** Saving and merging topics *)

Module Store.
Import JS Ocr.

(** The mapping inside [preserveQuestionFields]; the store of the client
    and the route of the server carry the same one. *)
Definition preserveFields (q : Question) : Question :=
  {| q_id := q_id q;
     q_no := Some (orDefault (q_no q) EmptyString);
     q_question := q_question q;
     q_options := q_options q;
     q_correctAnswer := q_correctAnswer q;
     q_explanation := Some (orDefault (q_explanation q) EmptyString);
     q_topic := Some (orDefault (q_topic q) EmptyString);
     q_pageNo := Some (orDefault (q_pageNo q) EmptyString) |}.

Definition preserveQuestionFields (questions : list Question) : list Question :=
  map preserveFields questions.

Definition withQuestions (t : Topic) (qs : list Question) : Topic :=
  mkTopic (t_id t) (t_name t) qs.

(** The update both branches of the client's [addTopic] apply to the
    list of topics; [added] is the topic appended when no topic has the
    identifier: the server's answer, or the local one when the server
    could not be reached. *)
Definition mergeInto (prev : list Topic) (topicWithPreserved added : Topic)
  : list Topic :=
  match find (fun t => String.eqb (t_id t) (t_id topicWithPreserved)) prev with
  | Some existingById =>
      let mergedQuestions :=
        t_questions existingById
        ++ preserveQuestionFields (t_questions topicWithPreserved) in
      map (fun t => if String.eqb (t_id t) (t_id topicWithPreserved)
                    then withQuestions t mergedQuestions else t) prev
  | None => prev ++ [added]
  end.

(** Client [addTopic]: [saved] is the topic the server answered with,
    [None] when the request failed. *)
Definition addTopic (prev : list Topic) (topic : Topic) (saved : option Topic)
  : list Topic :=
  let topicWithPreserved :=
    withQuestions topic (preserveQuestionFields (t_questions topic)) in
  match saved with
  | Some savedTopic => mergeInto prev topicWithPreserved savedTopic
  | None => mergeInto prev topicWithPreserved topicWithPreserved
  end.

(** Server, [POST /api/topics], over the stored topics; [newId] is the
    identifier the table gives a new row.  [None] is the answer 400 for a
    missing name. *)
Definition postTopic (db : list Topic) (newId : string) (id : option string)
           (name : string) (questions : list Question)
  : option (Topic * list Topic) :=
  if negb (truthy name) then None
  else
    let preservedQuestions := preserveQuestionFields questions in
    let create :=
      let topic := mkTopic newId name preservedQuestions in
      Some (topic, db ++ [topic]) in
    match id with
    | Some i =>
        if truthy i then
          match find (fun t => String.eqb (t_id t) i) db with
          | Some existing =>
              let mergedQuestions := t_questions existing ++ preservedQuestions in
              let updated := withQuestions existing mergedQuestions in
              Some (updated,
                    map (fun t => if String.eqb (t_id t) i
                                  then withQuestions t mergedQuestions else t) db)
          | None => create
          end
        else create
    | None => create
    end.

(** The client's [addTopic] against the server: the topic with its
    preserved questions is posted, and the answer, when there is one,
    goes into the update of the client's list.  The result is the
    client's list and the server's table. *)
Definition saveTopic (prev db : list Topic) (newId : string) (topic : Topic)
  : list Topic * list Topic :=
  let sent := preserveQuestionFields (t_questions topic) in
  match postTopic db newId (Some (t_id topic)) (t_name topic) sent with
  | Some (savedTopic, db') => (addTopic prev topic (Some savedTopic), db')
  | None => (addTopic prev topic None, db)
  end.


(** The page number read off a question, with the default of an absent
    field. *)
Definition pageNoOf (q : Question) : string := orDefault (q_pageNo q) EmptyString.

End Store.

(** ** The specification's wording, as definitions *)

Module Spec.
Import JS Re Resolver Dedup Importer.

(** [Subseq s l]: [s] is [l] with some elements left out, the others in
    their order. *)
Inductive Subseq {A} : list A -> list A -> Prop :=
| Subseq_nil : Subseq [] []
| Subseq_keep x s l : Subseq s l -> Subseq (x :: s) (x :: l)
| Subseq_drop x s l : Subseq s l -> Subseq s (x :: l).

(** The values a strategy finds under its headers, empty and missing
    cells left out. *)
Definition yield (look : string -> option string) (labels : list string)
  : list string :=
  flat_map (fun optKey => match look optKey with
                          | Some v => if truthy v then [v] else []
                          | None => []
                          end) labels.

(** The four strategies, in the order of the specification. *)
Definition strategies (row : Row) : list (list string) :=
  [ yield (get row) optionLabels;
    yield (get row) legacyLabels;
    yield (get row) letterLabels;
    yield (getVal row) optionLabels ].


(** A strategy of the answer check: [None] when the form of the correct
    answer is not the strategy's, the verdict otherwise. *)
Definition Strategy := string -> list string -> string -> option bool.

(** The index a labelled answer names, when the text is [Option], an
    optional white-space character and a letter A-D or a digit 1-4. *)
Definition labeledForm (correctText : string) : option Z :=
  match literalCI OPTION (list_ascii_of_string correctText) with
  | Some [c] =>
      if classAD c then Some (letterIndex c)
      else if class14 c then Some (digitIndex c) else None
  | Some [w; c] =>
      if isWhiteSpace w then
        if classAD c then Some (letterIndex c)
        else if class14 c then Some (digitIndex c) else None
      else None
  | _ => None
  end.

(** The index a bare letter A-D names. *)
Definition bareForm (correctText : string) : option Z :=
  match correctText with
  | String c EmptyString => if classAD c then Some (letterIndex c) else None
  | _ => None
  end.

(** Exact equality of the option at an index with the selected text;
    no option at the index is no match. *)
Definition optionIs (options : list string) (index : Z) (selected : string) : bool :=
  match at_ options index with
  | Some o => String.eqb o selected
  | None => false
  end.

Definition labeledOption : Strategy := fun correctText options selected =>
  option_map (fun i => optionIs options i selected) (labeledForm correctText).

Definition bareLetter : Strategy := fun correctText options selected =>
  option_map (fun i => optionIs options i selected) (bareForm correctText).

(** The literal form: the texts are equal without case, both trimmed
    ([resolve] hands every strategy the correct answer trimmed). *)
Definition literalText : Strategy := fun correctText options selected =>
  Some (String.eqb (toLowerCase (trim selected)) (toLowerCase correctText)).

(** The strategies of the question card, which compare positions: the
    first position of the selected text in the options with the index. *)
Definition labeledPosition : Strategy := fun correctText options selected =>
  option_map (fun i => (indexOf options selected =? i)%Z) (labeledForm correctText).

Definition barePosition : Strategy := fun correctText options selected =>
  option_map (fun i => (indexOf options selected =? i)%Z) (bareForm correctText).

(** The first strategy whose form applies decides. *)
Fixpoint firstMatch (strategies : list Strategy) (correctText : string)
         (options : list string) (selected : string) : bool :=
  match strategies with
  | [] => false
  | s :: rest =>
      match s correctText options selected with
      | Some verdict => verdict
      | None => firstMatch rest correctText options selected
      end
  end.

(** [resolve] of the specification, on the trimmed correct answer. *)
Definition resolve (correctAnswer : string) (options : list string)
           (selected : string) : bool :=
  firstMatch [labeledOption; bareLetter; literalText] (trim correctAnswer)
             options selected.

Definition resolveByPosition (correctAnswer : string) (options : list string)
           (selected : string) : bool :=
  firstMatch [labeledPosition; barePosition; literalText] (trim correctAnswer)
             options selected.

(** A row the normalizer has no question text for, or fewer than two
    options. *)
Definition skippable (row : Row) : Prop :=
  truthyOpt (getVal row "Question") = false \/ length (rowOptions row) < 2.

(** The loop state after one more skipped row. *)
Definition countSkip (st : LoopState) : LoopState :=
  mkLoop (processedQuestions st) (S (skippedCount st)) (drawn st).

(** No group is empty. *)
Definition groupsFilled (g : Groups) : Prop :=
  forall name qs, In (name, qs) g -> qs <> [].

(** Every question of a group is one of [qs]. *)
Definition groupsFrom (qs : list Question) (g : Groups) : Prop :=
  forall name group q, In (name, group) g -> In q group -> In q qs.





(** Two texts are equal under case-insensitive comparison, as a test. *)
Definition sameWithoutCase (a b : string) : bool :=
  String.eqb (toLowerCase a) (toLowerCase b).

(** The comparison the importer's key makes: of the trimmed texts. *)
Definition sameTrimmedWithoutCase (a b : string) : bool :=
  sameWithoutCase (trim a) (trim b).

(** The element at position [i] of [l], when no element before that
    position is the same; nothing otherwise. *)
Definition occursFirst (same : string -> string -> bool) (l : list string) (i : nat)
  : list string :=
  match nth_error l i with
  | Some x => if existsb (fun y => same y x) (firstn i l) then [] else [x]
  | None => []
  end.

(** The first occurrences of the elements of [l], in the order of their
    positions. *)
Definition firstOccurrences (same : string -> string -> bool) (l : list string)
  : list string :=
  flat_map (occursFirst same l) (seq 0 (length l)).








(** Sample data. *)
Definition planets : list string := ["Earth"; "Venus"; "Mars"; "Jupiter"].
(** The row of the round-trip example of the specification. *)
Definition canonicalHeaders : list string :=
  ["Question No."; "Question"; "Option A"; "Option B"; "Option C"; "Option D";
   "Correct Answer"; "Explanation"].
Definition sumRow : Row :=
  [("Question No.", "1"); ("Question", "What is 2+2?"); ("Option A", "3");
   ("Option B", "4"); ("Option C", "5"); ("Option D", "6");
   ("Correct Answer", "4"); ("Explanation", "Math basics")].
Definition blankRow : Row :=
  [("Question", EmptyString); ("Option A", "x"); ("Option B", "y")].
Definition goodRow : Row :=
  [("Question", "Q?"); ("Option A", "x"); ("Option B", "y")].
(** Identifiers drawn in sequence, for the examples. *)
Definition decimal (n : nat) : string := NilEmpty.string_of_uint (Nat.to_uint n).
Definition pageQuestion : Question :=
  {| q_id := "q1"; q_no := Some "22."; q_question := "Q?";
     q_options := ["a"; "b"; "c"; "d"]; q_correctAnswer := "B";
     q_explanation := None; q_topic := None; q_pageNo := Some "22" |}.
Definition emptyResult : Extractor.json :=
  Extractor.JObj [("pageNo", Extractor.JStr EmptyString);
                  ("questions", Extractor.JArr [])].
Definition newline : string := String Extractor.LF EmptyString.
Definition quote : string := String (ascii_of_nat 34) EmptyString.
(** The answer the prompt asks for when a page holds no question, in a
    fenced block, and a parser that knows this one text. *)
Definition emptyPayload : string :=
  ("{" ++ quote ++ "pageNo" ++ quote ++ ": " ++ quote ++ quote ++ ", "
       ++ quote ++ "questions" ++ quote ++ ": []}")%string.
Definition emptyAnswer : string :=
  ("```json" ++ newline ++ emptyPayload ++ newline ++ "```")%string.
Definition sampleParse (text : string) : string + Extractor.json :=
  if String.eqb text emptyPayload then inr emptyResult
  else inl "Unexpected token".
Definition fencedAround : string :=
  ("```json" ++ newline ++ "{" ++ quote ++ "questions" ++ quote ++ ": [1, ], }"
             ++ newline ++ "```")%string.
(** Two options that differ in a leading space only. *)
Definition spacedPair : list string := [" a"; "a"].
(** A file whose headers do not name a question column, and its one row. *)
Definition letterHeaders : list string := ["Q"; "A"; "B"].
Definition letterRow : Row := [("Q", "What?"); ("A", "x"); ("B", "y")].
(** A question whose identifier is a name every object inherits. *)
Definition inheritedQuestion (answer : string) : Question :=
  {| q_id := "constructor"; q_no := None; q_question := "Q?";
     q_options := ["a"; "b"]; q_correctAnswer := answer;
     q_explanation := None; q_topic := None; q_pageNo := None |}.
(** Upper-casing of the letters a-z, for the examples. *)
Definition upperAscii (s : string) : string :=
  string_of_list_ascii
    (map (fun c => if inRange 97 122 c then ascii_of_N (code c - 32) else c)
         (list_ascii_of_string s)).

End Spec.

(** ** The practice page *)

Module Practice.
Import JS Re Resolver.

(** The questions of the topics chosen in the address, in the order of the
    stored topics. *)
Definition selectQuestions (topicIds : list string) (topics : list Topic)
  : list Question :=
  flat_map (fun t => if existsb (String.eqb (t_id t)) topicIds
                     then t_questions t else []) topics.

(** [a[i] = x] inside the array. *)
Fixpoint setAt {A} (a : list A) (i : nat) (x : A) : list A :=
  match a, i with
  | [], _ => []
  | _ :: t, 0 => x :: t
  | h :: t, S i' => h :: setAt t i' x
  end.

(** [[a[i], a[j]] = [a[j], a[i]]], for two positions inside the array (the
    shuffle has no others). *)
Definition swap {A} (a : list A) (i j : nat) : list A :=
  match nth_error a i, nth_error a j with
  | Some x, Some y => setAt (setAt a i y) j x
  | _, _ => a
  end.

(** The loop of the shuffle from position [i] down to 1; [draw i] is the
    value of [Math.floor(Math.random() * (i + 1))] at that turn. *)
Fixpoint shuffleFrom {A} (draw : nat -> nat) (i : nat) (a : list A) : list A :=
  match i with
  | 0 => a
  | S i' => shuffleFrom draw i' (swap a i (draw i))
  end.

Definition shuffle {A} (draw : nat -> nat) (a : list A) : list A :=
  shuffleFrom draw (length a - 1) a.

(** The list the effect hands to [setQuestions]. *)
Definition practiceQuestions (draw : nat -> nat) (isRandom : bool)
           (topicIds : list string) (topics : list Topic) : list Question :=
  let allQuestions := selectQuestions topicIds topics in
  if isRandom then shuffle draw allQuestions else allQuestions.

(** What moves [currentIndex]: the two buttons and the grid of the sheet. *)
Inductive NavEvent :=
| Next
| Prev
| Jump (i : nat).

Definition navigate (len : nat) (currentIndex : nat) (e : NavEvent) : nat :=
  match e with
  | Next => if (currentIndex <? len - 1)%nat then currentIndex + 1 else currentIndex
  | Prev => if (0 <? currentIndex)%nat then currentIndex - 1 else currentIndex
  | Jump i => i
  end.

(** The grid shows one button for each position of the list. *)
Definition offered (len : nat) (e : NavEvent) : Prop :=
  match e with
  | Jump i => i < len
  | _ => True
  end.

(** [answers]: the selected option by question identifier, the own
    properties of the object in the order they were created. *)
Definition Answers := list (string * string).

(** The own property of [answers] under a name. *)
Fixpoint ownAnswer (answers : Answers) (id : string) : option string :=
  match answers with
  | [] => None
  | (k, v) :: t => if String.eqb k id then Some v else ownAnswer t id
  end.

(** What [answers[id]] evaluates to.  [answers] is a plain object: under a
    name that every object inherits and that is no own property, the read
    gives the inherited value (a function, or the prototype under
    [__proto__]), which is truthy, equals no text, and has no [trim]. *)
Inductive Lookup :=
| Own (option : string)
| Inherited
| Missing.

Definition answerOf (answers : Answers) (id : string) : Lookup :=
  match ownAnswer answers id with
  | Some v => Own v
  | None =>
      if existsb (String.eqb id) Importer.inheritedNames then Inherited else Missing
  end.

(** [{...prev, [id]: option}] *)
Fixpoint setAnswer (answers : Answers) (id option : string) : Answers :=
  match answers with
  | [] => [(id, option)]
  | (k, v) :: t =>
      if String.eqb k id then (k, option) :: t else (k, v) :: setAnswer t id option
  end.

(** [handleAnswer(option)] with the question at [currentIndex]. *)
Definition handleAnswer (questions : list Question) (answers : Answers)
           (currentIndex : nat) (option : string) : Answers :=
  match nth_error questions currentIndex with
  | None => answers
  | Some currentQ => setAnswer answers (q_id currentQ) option
  end.

Definition answersAfter (questions : list Question)
           (selections : list (nat * string)) : Answers :=
  fold_left (fun answers sel => handleAnswer questions answers (fst sel) (snd sel))
            selections [].

Record Stats := mkStats {
  total : nat;
  answered : nat;
  correct : nat;
  incorrect : nat;
  unanswered : Z
}.

(** One turn of the loop over the questions, on the pair
    [(stats.correct, stats.incorrect)]; [None] once the loop has thrown.
    An inherited value passes [if (ans)]; in cases 1 and 2 it equals no
    option and the question is counted incorrect, in case 3 the call of
    [ans.trim()] throws a [TypeError]. *)
Definition countStep (answers : Answers) (st : option (nat * nat)) (q : Question)
  : option (nat * nat) :=
  match st with
  | None => None
  | Some st =>
      match answerOf answers (q_id q) with
      | Own ans => Some (statsStep (q_correctAnswer q) (q_options q) (Some ans) st)
      | Missing => Some st
      | Inherited =>
          let correctText := trim (q_correctAnswer q) in
          if isLabeled correctText || testBareLetter correctText
          then Some (fst st, S (snd st))
          else None
      end
  end.

(** The [stats] object after the loop over the questions; [None] when the
    loop throws. *)
Definition stats (questions : list Question) (answers : Answers) : option Stats :=
  match fold_left (countStep answers) questions (Some (0, 0)) with
  | None => None
  | Some counted =>
      Some {| total := length questions;
              answered := length answers;
              correct := fst counted;
              incorrect := snd counted;
              unanswered :=
                (Z.of_nat (length questions) - Z.of_nat (length answers))%Z |}
  end.

(** A question for which [answers[q.id]] is truthy. *)
Definition isAnswered (answers : Answers) (q : Question) : bool :=
  match answerOf answers (q_id q) with
  | Own ans => truthy ans
  | Inherited => true
  | Missing => false
  end.

(** No question carries an identifier that every object inherits as a
    property name (the identifiers the importers draw are UUIDs). *)
Definition plainIds (questions : list Question) : Prop :=
  Forall (fun q => existsb (String.eqb (q_id q)) Importer.inheritedNames = false)
         questions.

(** What the recorded answers keep under [handleAnswer] with non-empty
    options: one entry for an identifier, of a question of the list, with a
    non-empty text. *)
Definition recorded (questions : list Question) (answers : Answers) : Prop :=
  NoDup (map fst answers)
  /\ (forall id, In id (map fst answers) -> In id (map q_id questions))
  /\ (forall v, In v (map snd answers) -> truthy v = true).

(** [String.fromCharCode(65 + idx)]: the letter on the badge of an option. *)
Definition badge (idx : nat) : string :=
  String (ascii_of_nat (65 + idx)) EmptyString.

End Practice.

(** ** The worker's API handler *)

Module Worker.
Import JS Extractor.

(** What [res.json] was given. *)
Inductive Body :=
| Untouched                       (* [{}], before any call *)
| ErrorText (error : string)
| ExtractionError (o : Outcome)   (* the [[DEBUG]] answers of the extraction *)
| Result (result : json)
| NoTopics                        (* [[]] *)
| DefaultKeys.

(** The mock response of the worker: the last status and body written. *)
Record Res := mkRes { statusCode : nat; responseBody : Body }.

Definition initial : Res := mkRes 200 Untouched.

(** [res.status(code).json(body)] *)
Definition send (code : nat) (body : Body) (res : Res) : Res := mkRes code body.

(** The call of the model: its text, or the message of what it threw. *)
Definition Generated := (string + string)%type.

Section WithParser.
Variable JSON_parse : string -> string + json.

(** The block for [POST /api/extract-mcq]; the flag tells whether the
    handler returned from inside it. *)
Definition extractMcq (imageBase64 : option string) (envKey processKey : option string)
           (generated : Generated) (res : Res) : Res * bool :=
  let imageSize := match imageBase64 with Some i => String.length i | None => 0 end in
  if negb (truthyOpt imageBase64) then
    (send 400 (ErrorText "No image provided") res, true)
  else if (imageSize <? 1000)%nat then
    (send 400 (ErrorText "Image appears corrupted (too small). Try uploading again.") res,
     true)
  else if negb (truthyOpt (orElse envKey processKey)) then
    (send 500 (ErrorText "Gemini API not configured") res, true)
  else
    match generated with
    | inl message =>
        (send 500 (ErrorText (if truthy message then message
                              else "Internal server error")) res, false)
    | inr responseText =>
        match extract JSON_parse responseText with
        | Extracted result _ => (send 200 (Result result) res, false)
        | failure => (send 400 (ExtractionError failure) res, true)
        end
    end.

(** [handleApiRoute(req, res, path, env)] on the mock response. *)
Definition handleApiRoute (method path : string) (imageBase64 : option string)
           (envKey processKey : option string) (generated : Generated)
           (res : Res) : Res :=
  let '(res, returned) :=
    if String.eqb path "/api/extract-mcq" && String.eqb method "POST"
    then extractMcq imageBase64 envKey processKey generated res
    else (res, false) in
  if returned then res
  else
    let res := if String.eqb path "/api/topics" then send 200 NoTopics res else res in
    let res := if String.eqb path "/api/keys" then send 200 DefaultKeys res else res in
    send 404 (ErrorText "Not found") res.
End WithParser.

End Worker.

(** ** The AI explanation: choice of the key *)

Module Explain.
Import JS.

Inductive Provider :=
| openai
| gemini.

(** [!key || !key.trim()] *)
Definition blank (key : option string) : bool :=
  match key with
  | Some k => negb (truthy k) || negb (truthy (trim k))
  | None => true
  end.

(** The client's choice in [getExplanation]: the provider and key of the
    request, or [None] when it asks for a key instead. *)
Definition chooseKey (aiProvider : Provider) (openaiKey geminiKey : string)
  : option (Provider * string) :=
  let provider := aiProvider in
  let selectedKey := match provider with openai => openaiKey | gemini => geminiKey end in
  let '(provider, selectedKey) :=
    if blank (Some selectedKey) then
      match provider with
      | openai => if negb (blank (Some geminiKey)) then (gemini, geminiKey)
                  else (provider, selectedKey)
      | gemini => if negb (blank (Some openaiKey)) then (openai, openaiKey)
                  else (provider, selectedKey)
      end
    else (provider, selectedKey) in
  if blank (Some selectedKey) then None else Some (provider, selectedKey).

Definition providerName (p : Provider) : string :=
  match p with openai => "openai" | gemini => "gemini" end.

(** The body of the request: a key under the name of its provider only. *)
Record Request := mkRequest {
  r_openaiKey : option string;
  r_geminiKey : option string;
  r_aiProvider : string
}.

Definition requestOf (choice : Provider * string) : Request :=
  let '(provider, selectedKey) := choice in
  {| r_openaiKey := match provider with openai => Some selectedKey | gemini => None end;
     r_geminiKey := match provider with gemini => Some selectedKey | openai => None end;
     r_aiProvider := providerName provider |}.

(** The server's check of the key, in [POST /api/generate-explanation]:
    the key it goes on with, or the name of the provider in its answer 400. *)
Definition serverKey (req : Request) : string + string :=
  let selectedKey :=
    if String.eqb (r_aiProvider req) "openai" then r_openaiKey req
    else r_geminiKey req in
  if blank selectedKey then
    inl (if String.eqb (r_aiProvider req) "openai" then "OpenAI" else "Gemini")
  else inr (match selectedKey with Some k => k | None => EmptyString end).

End Explain.

(** ** File names and deletion *)

Module Files.
Import JS.

(** [name.endsWith(suffix)] *)
Definition endsWith (name suffix : string) : bool :=
  prefixb (rev (list_ascii_of_string suffix)) (rev (list_ascii_of_string name)).

(** [handleFileSelect]: whether the file is read as a spreadsheet. *)
Definition readAsExcel (name : string) : bool :=
  endsWith name ".xlsx" || endsWith name ".xls".

(** Client [deleteTopic]: the update of the list of topics. *)
Definition deleteTopic (prev : list Topic) (topicId : string) : list Topic :=
  filter (fun t => negb (String.eqb (t_id t) topicId)) prev.

End Files.

(** ** Invariants of the grouping *)

Module Invariants.
Import Importer.

(** The questions of all groups, group after group. *)
Definition allQuestions (g : Groups) : list Question := concat (map snd g).

(** Names are distinct and every question stands under its topic. *)
Definition wellGrouped (g : Groups) : Prop :=
  NoDup (map fst g)
  /\ forall n group x, In (n, group) g -> In x group -> finalTopic x = n.

End Invariants.

(** * Properties *)

Import JS Re Resolver Dedup Importer Extractor Ocr Store Spec.

(** ** Texts *)

Section Texts.

Lemma string_list_inj (a b : string) :
  list_ascii_of_string a = list_ascii_of_string b -> a = b.
Proof.
  intros H.
  rewrite <- (string_of_list_ascii_of_string a),
          <- (string_of_list_ascii_of_string b).
  now rewrite H.
Qed.

Lemma lowerChar_white (c : ascii) : isWhiteSpace (lowerChar c) = isWhiteSpace c.
Proof.
  destruct c as [[] [] [] [] [] [] [] []]; reflexivity.
Qed.

Lemma dropWhile_map {A B} (f : A -> B) (p : B -> bool) (q : A -> bool) (l : list A) :
  (forall x, p (f x) = q x) ->
  dropWhile p (map f l) = map f (dropWhile q l).
Proof.
  intros Hpq.
  induction l as [|x t IH]; simpl; [reflexivity|].
  rewrite Hpq.
  destruct (q x); [exact IH | reflexivity].
Qed.

Lemma trimList_map_lower (l : list ascii) :
  trimList (map lowerChar l) = map lowerChar (trimList l).
Proof.
  unfold trimList.
  rewrite (dropWhile_map lowerChar isWhiteSpace isWhiteSpace) by apply lowerChar_white.
  rewrite <- map_rev.
  rewrite (dropWhile_map lowerChar isWhiteSpace isWhiteSpace) by apply lowerChar_white.
  now rewrite map_rev.
Qed.

(** Lower-casing and trimming commute. *)
Lemma toLowerCase_trim (s : string) :
  toLowerCase (trim s) = trim (toLowerCase s).
Proof.
  unfold toLowerCase, trim.
  rewrite !list_ascii_of_string_of_list_ascii.
  now rewrite trimList_map_lower.
Qed.

Lemma ciEqual_importKey (a b : string) :
  ciEqual a b -> importKey a = importKey b.
Proof.
  unfold ciEqual, importKey. intros H.
  now rewrite !toLowerCase_trim, H.
Qed.

Lemma has_true (seen : list string) (k : string) :
  has seen k = true <-> In k seen.
Proof.
  unfold has. rewrite existsb_exists. split.
  - intros [x [Hin Heq]]. apply String.eqb_eq in Heq. now subst.
  - intros Hin. exists k. split; [assumption | apply String.eqb_refl].
Qed.

Lemma has_false (seen : list string) (k : string) :
  has seen k = false <-> ~ In k seen.
Proof.
  rewrite <- has_true. destruct (has seen k); split; congruence.
Qed.

End Texts.

(** ** The deduplicator *)

Section Deduplicator.

Variable key : string -> string.

Lemma filterSeen_In (l : list string) : forall seen x,
  In x (filterSeen key seen l) -> In x l /\ ~ In (key x) seen.
Proof.
  induction l as [|opt t IH]; simpl; intros seen x Hin; [contradiction|].
  destruct (has seen (key opt)) eqn:Hs.
  - destruct (IH _ _ Hin) as [Ht Hn]. auto.
  - destruct Hin as [<- | Hin].
    + split; [now left | now apply has_false].
    + destruct (IH _ _ Hin) as [Ht Hn]. split; [now right|].
      intros Hk. apply Hn. now right.
Qed.

Lemma filterSeen_NoDup_keys (l : list string) : forall seen,
  NoDup (map key (filterSeen key seen l)).
Proof.
  induction l as [|opt t IH]; simpl; intros seen; [constructor|].
  destruct (has seen (key opt)) eqn:Hs; [apply IH|].
  simpl. constructor; [|apply IH].
  intros Hin. apply in_map_iff in Hin. destruct Hin as [y [Hk Hy]].
  apply filterSeen_In in Hy. destruct Hy as [_ Hn].
  apply Hn. left. now symmetry.
Qed.

Lemma filterSeen_Subseq (l : list string) : forall seen,
  Subseq (filterSeen key seen l) l.
Proof.
  induction l as [|opt t IH]; simpl; intros seen; [constructor|].
  destruct (has seen (key opt)); constructor; apply IH.
Qed.

(** An element with a key that is new, and that no element before it
    carries, is kept. *)
Lemma filterSeen_keeps_first (l1 : list string) : forall seen x l2,
  ~ In (key x) seen ->
  (forall y, In y l1 -> key y <> key x) ->
  In x (filterSeen key seen (l1 ++ x :: l2)).
Proof.
  induction l1 as [|a t IH]; simpl; intros seen x l2 Hseen Hbefore.
  - apply has_false in Hseen. rewrite Hseen. now left.
  - assert (Hax : key a <> key x) by (apply Hbefore; now left).
    destruct (has seen (key a)).
    + apply IH; auto.
    + right. apply IH; [|auto].
      intros [Heq | Hin]; [now apply Hax | now apply Hseen].
Qed.

(** A kept element stands where its key occurs first. *)
Lemma filterSeen_kept_is_first (l : list string) : forall seen x,
  In x (filterSeen key seen l) ->
  exists l1 l2, l = l1 ++ x :: l2 /\ forall y, In y l1 -> key y <> key x.
Proof.
  induction l as [|opt t IH]; simpl; intros seen x Hin; [contradiction|].
  destruct (has seen (key opt)) eqn:Hs.
  - destruct (filterSeen_In _ _ _ Hin) as [_ Hn].
    destruct (IH _ _ Hin) as [l1 [l2 [-> Hfirst]]].
    exists (opt :: l1), l2. split; [reflexivity|].
    intros y [<- | Hy]; [|now apply Hfirst].
    intros Hk. apply Hn. rewrite <- Hk. now apply has_true.
  - destruct Hin as [<- | Hin].
    + exists [], t. split; [reflexivity | intros y []].
    + destruct (filterSeen_In _ _ _ Hin) as [_ Hn].
      destruct (IH _ _ Hin) as [l1 [l2 [-> Hfirst]]].
      exists (opt :: l1), l2. split; [reflexivity|].
      intros y [<- | Hy]; [|now apply Hfirst].
      intros Hk. apply Hn. now left.
Qed.

(** Every key of the input is the key of a kept element. *)
Lemma filterSeen_represents (l : list string) : forall seen x,
  In x l -> ~ In (key x) seen ->
  exists y, In y (filterSeen key seen l) /\ key y = key x.
Proof.
  induction l as [|opt t IH]; simpl; intros seen x Hin Hseen; [contradiction|].
  destruct (has seen (key opt)) eqn:Hs.
  - destruct Hin as [<- | Hin]; [|now apply IH].
    exfalso. apply Hseen. now apply has_true.
  - destruct Hin as [<- | Hin]; [exists opt; split; [now left | reflexivity]|].
    destruct (String.eqb (key x) (key opt)) eqn:Hk.
    + apply String.eqb_eq in Hk. exists opt. split; [now left | now symmetry].
    + apply String.eqb_neq in Hk.
      destruct (IH (key opt :: seen) x Hin) as [y [Hy Hky]].
      * intros [Heq | Hs']; [now apply Hk | now apply Hseen].
      * exists y. split; [now right | assumption].
Qed.

Lemma NoDup_keys_positions (out : list string) (i j : nat) (a b : string) :
  NoDup (map key out) -> i < j ->
  nth_error out i = Some a -> nth_error out j = Some b -> key a <> key b.
Proof.
  intros Hnd Hij Ha Hb Hk.
  assert (Hi : i < length (map key out)).
  { rewrite length_map. apply nth_error_Some. congruence. }
  pose proof (proj1 (NoDup_nth_error (map key out)) Hnd i j Hi) as Hinj.
  rewrite !nth_error_map, Ha, Hb in Hinj. simpl in Hinj.
  specialize (Hinj (f_equal Some Hk)). lia.
Qed.

(** The element behind [before] is the first of its key exactly when no
    element of [before] carries that key. *)
Lemma occursFirst_here (before : list string) (x : string) (t : list string) :
  occursFirst (fun y z => String.eqb (key y) (key z)) (before ++ x :: t) (length before)
  = if existsb (fun y => String.eqb (key y) (key x)) before then [] else [x].
Proof.
  unfold occursFirst.
  rewrite nth_error_app2, Nat.sub_diag by apply Nat.le_refl. cbn [nth_error].
  now rewrite firstn_app, Nat.sub_diag, firstn_all, firstn_O, app_nil_r.
Qed.

(** The filter with its set of keys seen keeps the elements that stand
    where their key occurs first, [seen] holding the keys of the elements
    passed so far. *)
Lemma filterSeen_positions (l : list string) : forall before seen,
  (forall k, has seen k = existsb (fun y => String.eqb (key y) k) before) ->
  filterSeen key seen l
  = flat_map (occursFirst (fun y z => String.eqb (key y) (key z)) (before ++ l))
             (seq (length before) (length l)).
Proof.
  induction l as [|x t IH]; intros before seen Hseen; [reflexivity|].
  cbn [filterSeen length seq flat_map].
  rewrite occursFirst_here, <- Hseen.
  assert (Htail : forall seen',
             (forall k, has seen' k
                        = existsb (fun y => String.eqb (key y) k) (before ++ [x])) ->
             filterSeen key seen' t
             = flat_map (occursFirst (fun y z => String.eqb (key y) (key z))
                                     (before ++ x :: t))
                        (seq (S (length before)) (length t))).
  { intros seen' H. rewrite (IH (before ++ [x]) seen' H).
    rewrite <- app_assoc, length_app. cbn [app length].
    now rewrite Nat.add_1_r. }
  destruct (has seen (key x)) eqn:Hx; cbn [app].
  - apply Htail. intros k. rewrite existsb_app. cbn [existsb].
    rewrite orb_false_r, <- Hseen.
    destruct (String.eqb (key x) k) eqn:Hk; [|now rewrite orb_false_r].
    apply String.eqb_eq in Hk. subst k. now rewrite Hx.
  - f_equal. apply Htail. intros k. rewrite existsb_app. cbn [existsb has].
    rewrite orb_false_r, <- Hseen. unfold has.
    rewrite (String.eqb_sym k (key x)). apply orb_comm.
Qed.

Lemma filterSeen_firstOccurrences (l : list string) :
  filterSeen key [] l
  = firstOccurrences (fun y z => String.eqb (key y) (key z)) l.
Proof.
  unfold firstOccurrences. now rewrite (filterSeen_positions l [] []).
Qed.

End Deduplicator.

(** C4 (as amended). For every list of option texts, the output of the
    deduplicator holds no two elements that are equal under case-insensitive
    comparison, and it is the list of the first occurrences of the input
    elements, in the order of their positions: the element at a position is
    kept exactly when no element before that position is the same.  The
    importer's [deduplicatedOptions] takes two elements for the same when
    their trimmed texts are equal without case; the filter of
    [validateAndCleanQuestions] takes them for the same when they are equal
    without case, and runs on the options it has trimmed. *)
Theorem dedup_no_duplicates_first_occurrences_in_order :
  forall options : list string,
    (* the importer *)
    deduplicatedOptions options = firstOccurrences sameTrimmedWithoutCase options
    /\ (forall i j a b, i < j ->
          nth_error (deduplicatedOptions options) i = Some a ->
          nth_error (deduplicatedOptions options) j = Some b -> ~ ciEqual a b)
    /\ Subseq (deduplicatedOptions options) options
    (* the filter of the OCR cleaner, and the cleaner *)
    /\ filterSeen cleanKey [] options = firstOccurrences sameWithoutCase options
    /\ cleanDedup options = firstOccurrences sameWithoutCase (map trim options)
    /\ (forall i j a b, i < j ->
          nth_error (cleanDedup options) i = Some a ->
          nth_error (cleanDedup options) j = Some b -> ~ ciEqual a b)
    /\ Subseq (cleanDedup options) (map trim options).
Proof.
  intros options. repeat split.
  - apply (filterSeen_firstOccurrences importKey).
  - intros i j a b Hij Ha Hb Hci.
    apply (NoDup_keys_positions importKey _ i j a b
             (filterSeen_NoDup_keys importKey options []) Hij Ha Hb).
    now apply ciEqual_importKey.
  - apply filterSeen_Subseq.
  - apply (filterSeen_firstOccurrences cleanKey).
  - apply (filterSeen_firstOccurrences cleanKey).
  - intros i j a b Hij Ha Hb Hci.
    apply (NoDup_keys_positions cleanKey _ i j a b
             (filterSeen_NoDup_keys cleanKey (map trim options) []) Hij Ha Hb).
    exact Hci.
  - apply filterSeen_Subseq.
Qed.

(** C4, as stated, fails on the importer: of two options that differ in a
    leading space only, the second is not equal to the first under
    case-insensitive comparison, so it is the first occurrence of its text,
    and the importer drops it; the list of first occurrences under
    case-insensitive comparison holds both. *)
Lemma importer_drops_a_text_that_differs_in_white_space :
  ~ ciEqual " a" "a"
  /\ firstOccurrences sameWithoutCase spacedPair = [" a"; "a"]
  /\ deduplicatedOptions spacedPair = [" a"]
  /\ deduplicatedOptions spacedPair <> firstOccurrences sameWithoutCase spacedPair.
Proof.
  repeat split; try reflexivity; vm_compute; discriminate.
Qed.

(** ** The row normalizer *)

Section RowOptions.

Variable look : string -> option string.


End RowOptions.





Lemma rowOptions_In (row : Row) (o : string) :
  In o (rowOptions row) -> In o (rawOptions row) /\ notBlank o = true.
Proof.
  unfold rowOptions, deduplicatedOptions. intros Hin.
  apply filterSeen_In in Hin. destruct Hin as [Hin _].
  now apply filter_In in Hin.
Qed.

Lemma normalize_Skip_iff (uuid sourceName : string) (index : nat) (row : Row) :
  normalize uuid sourceName index row = Skip
  <-> truthyOpt (getVal row "Question") = false \/ length (rowOptions row) < 2.
Proof.
  unfold normalize.
  destruct (getVal row "Question") as [questionText|]; simpl.
  - destruct (truthy questionText); simpl.
    + destruct (length (rowOptions row) <? 2)%nat eqn:Hlen.
      * apply Nat.ltb_lt in Hlen. tauto.
      * apply Nat.ltb_ge in Hlen. split; [discriminate|].
        intros [H|H]; [discriminate | lia].
    + tauto.
  - tauto.
Qed.

Lemma normalize_Keep (uuid sourceName : string) (index : nat) (row : Row) (q : Question) :
  normalize uuid sourceName index row = Keep q ->
  q_options q = rowOptions row /\ 2 <= length (q_options q)
  /\ getVal row "Question" = Some (q_question q) /\ truthy (q_question q) = true
  /\ q_id q = uuid /\ q_pageNo q = None.
Proof.
  unfold normalize.
  destruct (getVal row "Question") as [questionText|]; [|discriminate].
  destruct (truthy questionText) eqn:Ht; simpl; [|discriminate].
  destruct (length (rowOptions row) <? 2)%nat eqn:Hlen; [discriminate|].
  apply Nat.ltb_ge in Hlen.
  intros H. injection H as <-. simpl. repeat split; auto.
Qed.


(** ** The loop over the rows *)

Section RowLoop.

Variable uuid : nat -> string.
Variable sourceName : string.

Let step := step uuid sourceName.
Let processFrom := processFrom uuid sourceName.
Let processRows := processRows uuid sourceName.

Lemma step_skippable (st : LoopState) (index : nat) (row : Row) :
  skippable row -> step st (index, row) = countSkip st.
Proof.
  intros Hs. unfold step, Importer.step. simpl.
  now rewrite (proj2 (normalize_Skip_iff _ _ _ _) Hs).
Qed.

Lemma indexFrom_app (pre post : list Row) : forall i,
  indexFrom i (pre ++ post) = indexFrom i pre ++ indexFrom (i + length pre) post.
Proof.
  induction pre as [|r t IH]; simpl; intros i.
  - now rewrite Nat.add_0_r.
  - rewrite IH. now rewrite Nat.add_succ_r.
Qed.

Lemma processFrom_app (pre post : list Row) (st : LoopState) (i : nat) :
  processFrom st i (pre ++ post)
  = processFrom (processFrom st i pre) (i + length pre) post.
Proof.
  unfold processFrom, Importer.processFrom.
  now rewrite indexFrom_app, fold_left_app.
Qed.

(** Every row is either pushed or counted. *)
Lemma processFrom_accounts (rows : list Row) : forall st i,
  skippedCount (processFrom st i rows) + length (processedQuestions (processFrom st i rows))
  = skippedCount st + length (processedQuestions st) + length rows.
Proof.
  induction rows as [|r t IH]; intros st i.
  - unfold processFrom, Importer.processFrom. cbn [indexFrom fold_left length]. lia.
  - change (processFrom st i (r :: t)) with (processFrom (step st (i, r)) (S i) t).
    rewrite IH. unfold step, Importer.step. simpl fst. simpl snd.
    destruct (normalize _ _ _ _); cbn [skippedCount processedQuestions length];
      [lia|].
    rewrite length_app. cbn [length]. lia.
Qed.

Lemma processFrom_all_skipped (rows : list Row) : forall st i,
  Forall skippable rows ->
  processFrom st i rows
  = mkLoop (processedQuestions st) (skippedCount st + length rows) (drawn st).
Proof.
  induction rows as [|r t IH]; intros st i Hall.
  - simpl. rewrite Nat.add_0_r. now destruct st.
  - inversion Hall as [|? ? Hr Ht]; subst.
    change (processFrom st i (r :: t)) with (processFrom (step st (i, r)) (S i) t).
    rewrite (step_skippable _ _ _ Hr), (IH _ _ Ht). simpl.
    f_equal. lia.
Qed.

(** The questions pushed are questions the normalizer returned. *)
Lemma processFrom_questions (rows : list Row) : forall st i q,
  In q (processedQuestions (processFrom st i rows)) ->
  In q (processedQuestions st)
  \/ exists id index row, In row rows /\ normalize id sourceName index row = Keep q.
Proof.
  induction rows as [|r t IH]; intros st i q Hin; [now left|].
  change (processFrom st i (r :: t)) with (processFrom (step st (i, r)) (S i) t) in Hin.
  apply IH in Hin. destruct Hin as [Hin | [id [index [row [Hrow Hk]]]]].
  - unfold step, Importer.step in Hin. simpl in Hin.
    destruct (normalize (uuid (drawn st)) sourceName i r) as [|q'] eqn:Hn;
      simpl in Hin; [now left|].
    apply in_app_or in Hin. destruct Hin as [Hin | [<- | []]]; [now left|].
    right. exists (uuid (drawn st)), i, r. split; [now left | assumption].
  - right. exists id, index, row. split; [now right | assumption].
Qed.

End RowLoop.

(** C5. For every row whose resolved question field is empty or absent, and
    for every row that keeps fewer than two options, the row normalizer
    returns the skip signal (it is a total function: nothing is thrown); the
    loop adds one to the skipped total, leaves the collected questions
    untouched and goes on with the rows that follow; and over a whole batch
    every row is either collected or counted as skipped. *)
Theorem skipped_rows_counted_batch_continues :
  forall (uuid : nat -> string) (sourceName : string)
         (before : list Row) (row : Row) (after : list Row),
    skippable row ->
    (forall id index, normalize id sourceName index row = Skip)
    /\ processRows uuid sourceName (before ++ row :: after)
       = processFrom uuid sourceName
           (countSkip (processRows uuid sourceName before))
           (S (length before)) after
    /\ skippedCount (processRows uuid sourceName (before ++ row :: after))
       + length (processedQuestions (processRows uuid sourceName (before ++ row :: after)))
       = length (before ++ row :: after).
Proof.
  intros uuid sourceName before row after Hs. repeat split.
  - intros id index. now apply normalize_Skip_iff.
  - unfold processRows. rewrite processFrom_app. simpl Nat.add.
    change (processFrom uuid sourceName ?st ?i (row :: after))
      with (processFrom uuid sourceName (step uuid sourceName st (i, row)) (S i) after).
    now rewrite step_skippable.
  - unfold processRows. rewrite processFrom_accounts. simpl. lia.
Qed.

Lemma skipped_rows_counted_batch_continues_witness :
  skippable blankRow
  /\ skippedCount (processRows decimal "quiz.csv" ([goodRow] ++ blankRow :: [goodRow])) = 1
  /\ length (processedQuestions
               (processRows decimal "quiz.csv" ([goodRow] ++ blankRow :: [goodRow]))) = 2.
Proof.
  assert (Hs : skippable blankRow) by (left; reflexivity).
  split; [exact Hs|].
  destruct (skipped_rows_counted_batch_continues decimal "quiz.csv"
              [goodRow] blankRow [goodRow] Hs) as [_ [Hrun _]].
  rewrite Hrun. split; reflexivity.
Defined.

(** ** Grouping and hand-over *)

Lemma pushTo_In (g : Groups) : forall name q g' n group,
  pushTo g name q = Some g' -> In (n, group) g' ->
  In (n, group) g \/ exists old, In (n, old) g /\ group = old ++ [q].
Proof.
  induction g as [|[n0 qs0] t IH]; simpl; intros name q g' n group Hp Hin;
    [discriminate|].
  destruct (String.eqb n0 name).
  - injection Hp as <-. destruct Hin as [Heq | Hin].
    + injection Heq as <- <-. right. exists qs0. split; [now left | reflexivity].
    + left. now right.
  - destruct (pushTo t name q) as [t'|] eqn:Ht; [|discriminate].
    injection Hp as <-. destruct Hin as [Heq | Hin].
    + left. now left.
    + destruct (IH _ _ _ _ _ Ht Hin) as [H | [old [Ho ->]]].
      * left. now right.
      * right. exists old. split; [now right | reflexivity].
Qed.

Lemma groupStep_In (g g' : Groups) (q : Question) (n : string) (group : list Question) :
  groupStep (Some g) q = Some g' -> In (n, group) g' ->
  In (n, group) g \/ (exists old, In (n, old) g /\ group = old ++ [q]) \/ group = [q].
Proof.
  unfold groupStep. intros Hs Hin.
  destruct (pushTo g (finalTopic q) q) as [g1|] eqn:Hp.
  - injection Hs as <-.
    destruct (pushTo_In _ _ _ _ _ _ Hp Hin) as [H | H]; auto.
  - destruct (existsb _ inheritedNames); [discriminate|].
    injection Hs as <-. apply in_app_or in Hin.
    destruct Hin as [Hin | [Heq | []]]; [now left|].
    injection Heq as <- <-. now right; right.
Qed.

Lemma fold_groupStep_None (qs : list Question) : fold_left groupStep qs None = None.
Proof. induction qs; simpl; auto. Qed.

Lemma fold_groupStep_inv (qs : list Question) : forall g g' seen,
  fold_left groupStep qs (Some g) = Some g' ->
  groupsFilled g -> groupsFrom seen g ->
  groupsFilled g' /\ groupsFrom (seen ++ qs) g'.
Proof.
  induction qs as [|q t IH]; cbn [fold_left]; intros g g' seen Hf Hfilled Hfrom.
  - injection Hf as <-. now rewrite app_nil_r.
  - destruct (groupStep (Some g) q) as [g1|] eqn:Hs.
    + replace (seen ++ q :: t) with ((seen ++ [q]) ++ t) by now rewrite <- app_assoc.
      apply (IH g1 g' (seen ++ [q]) Hf).
      * intros n group Hin.
        destruct (groupStep_In _ _ _ _ _ Hs Hin) as [H | [[old [_ ->]] | ->]].
        -- now apply (Hfilled n).
        -- now destruct old.
        -- discriminate.
      * intros n group x Hin Hx. apply in_or_app.
        destruct (groupStep_In _ _ _ _ _ Hs Hin) as [H | [[old [Ho ->]] | ->]].
        -- left. now apply (Hfrom n group).
        -- apply in_app_or in Hx. destruct Hx as [Hx | Hx].
           ++ left. now apply (Hfrom n old).
           ++ now right.
        -- now right.
    + rewrite fold_groupStep_None in Hf. discriminate.
Qed.

Lemma insertByIndex_In (e : N * (string * list Question)) l x :
  In x (insertByIndex e l) -> x = e \/ In x l.
Proof.
  induction l as [|h t IH]; simpl.
  - intros [<- | []]. now left.
  - destruct (fst e <? fst h)%N; simpl.
    + intros [<- | H]; auto.
    + intros [<- | H]; [right; now left|].
      destruct (IH H); auto.
Qed.

Lemma entries_In (g : Groups) (e : string * list Question) :
  In e (entries g) -> In e g.
Proof.
  unfold entries. intros Hin. apply in_app_or in Hin.
  destruct Hin as [Hin | Hin]; [|now apply filter_In in Hin].
  apply in_map_iff in Hin. destruct Hin as [[n e'] [<- Hin]]. simpl.
  induction g as [|h t IH]; simpl in Hin; [contradiction|].
  destruct (arrayIndex (fst h)).
  - apply insertByIndex_In in Hin. destruct Hin as [Heq | Hin].
    + injection Heq as _ ->. now left.
    + right. now apply IH.
  - right. now apply IH.
Qed.

Lemma topicsFrom_In (uuid : nat -> string) (g : Groups) : forall n t,
  In t (topicsFrom uuid n g) -> In (t_name t, t_questions t) g.
Proof.
  induction g as [|[name qs] rest IH]; simpl; intros n t Hin; [contradiction|].
  destruct Hin as [<- | Hin]; [now left | right; now apply (IH (S n))].
Qed.

Lemma importSource_emitted (uuid : nat -> string) (sourceName : string)
      (rows : list Row) (t : Topic) :
  In t (emitted (importSource uuid sourceName rows)) ->
  t_questions t <> []
  /\ forall q, In q (t_questions t) ->
               In q (processedQuestions (processRows uuid sourceName rows)).
Proof.
  unfold importSource.
  destruct (length (processedQuestions (processRows uuid sourceName rows)) =? 0)%nat;
    [intros []|].
  destruct (questionsByTopic _) as [g|] eqn:Hg; [|intros []].
  simpl. intros Hin. apply topicsFrom_In, entries_In in Hin.
  destruct (fold_groupStep_inv _ [] g [] Hg) as [Hfilled Hfrom].
  - intros n qs [].
  - intros n group q [].
  - split; [now apply (Hfilled (t_name t)) | intros q Hq].
    now apply (Hfrom (t_name t) (t_questions t)).
Qed.

Lemma complete_emitted (uuid : nat -> string) (sourceName : string)
      (headers : list string) (rows : list Row) (t : Topic) :
  In t (emitted (complete uuid sourceName headers rows)) ->
  In t (emitted (importSource uuid sourceName rows)).
Proof.
  unfold complete.
  destruct (negb (hasQuestion headers) && (0 <? length headers)%nat);
    [intros [] | auto].
Qed.

(** C6 (as amended). For every batch in which all rows are skipped, no
    question survives, and the [complete] callback fails and hands no topic
    to [onImport]: with [Invalid Format], before any row is normalized, when
    the header row is not empty and none of its headers contains
    [question]; with [No Questions Found] (the specification's NoValidRows)
    otherwise.  And no import, whatever its headers and rows, ever hands
    over a topic without questions. *)
Theorem all_skipped_fails_without_topics :
  forall (uuid : nat -> string) (sourceName : string) (headers : list string)
         (rows : list Row),
    Forall skippable rows ->
    processedQuestions (processRows uuid sourceName rows) = []
    /\ complete uuid sourceName headers rows
       = (if hasQuestion headers || (length headers =? 0)%nat
          then NoQuestionsFound else Importer.InvalidFormat)
    /\ emitted (complete uuid sourceName headers rows) = []
    /\ (forall anyHeaders anyRows t,
          In t (emitted (complete uuid sourceName anyHeaders anyRows)) ->
          t_questions t <> []).
Proof.
  intros uuid sourceName headers rows Hall.
  assert (Hnone : processedQuestions (processRows uuid sourceName rows) = []).
  { unfold processRows.
    now rewrite (processFrom_all_skipped uuid sourceName rows loopStart 0 Hall). }
  assert (Himp : importSource uuid sourceName rows = NoQuestionsFound).
  { unfold importSource. now rewrite Hnone. }
  assert (Hc : complete uuid sourceName headers rows
               = (if hasQuestion headers || (length headers =? 0)%nat
                  then NoQuestionsFound else Importer.InvalidFormat)).
  { unfold complete. rewrite Himp.
    destruct (hasQuestion headers); [reflexivity|].
    now destruct headers. }
  split; [exact Hnone|]. split; [exact Hc|]. split.
  - rewrite Hc. now destruct (hasQuestion headers || (length headers =? 0)%nat).
  - intros anyHeaders anyRows t Hin.
    now apply complete_emitted, importSource_emitted in Hin.
Qed.

Lemma all_skipped_fails_without_topics_witness :
  Forall skippable [blankRow; []]
  /\ complete decimal "quiz.csv" ["Question"; "Option A"; "Option B"] [blankRow; []]
     = NoQuestionsFound.
Proof.
  assert (Hall : Forall skippable [blankRow; []]).
  { repeat constructor; left; reflexivity. }
  split; [exact Hall|].
  exact (proj1 (proj2 (all_skipped_fails_without_topics
                         decimal "quiz.csv" ["Question"; "Option A"; "Option B"]
                         _ Hall))).
Defined.

(** C6, as stated, fails: in a file with the headers [Q], [A] and [B] every
    row is skipped, for want of a question column, and the import ends with
    [Invalid Format], not with [No Questions Found]. *)
Lemma all_skipped_may_end_with_invalid_format :
  keys letterRow = letterHeaders
  /\ Forall skippable [letterRow]
  /\ complete decimal "quiz.csv" letterHeaders [letterRow] = Importer.InvalidFormat
  /\ complete decimal "quiz.csv" letterHeaders [letterRow] <> NoQuestionsFound.
Proof.
  split; [reflexivity|]. split; [repeat constructor; left; reflexivity|].
  split; [reflexivity | discriminate].
Qed.

(** ** Grouping keeps every question *)

Section Groups.

Import Invariants.

Lemma pushTo_some (g : Groups) : forall name q g',
  pushTo g name q = Some g' ->
  map fst g' = map fst g
  /\ Permutation (allQuestions g') (q :: allQuestions g)
  /\ (forall n group, In (n, group) g' ->
        In (n, group) g \/ (n = name /\ exists old, In (n, old) g /\ group = old ++ [q])).
Proof.
  unfold allQuestions.
  induction g as [|[n0 qs0] t IH]; cbn [pushTo]; intros name q g' H; [discriminate|].
  destruct (String.eqb n0 name) eqn:Hn.
  - apply String.eqb_eq in Hn. injection H as <-. cbn [map fst snd concat].
    split; [reflexivity|]. split.
    + rewrite <- app_assoc. cbn [app].
      apply Permutation_sym, Permutation_middle.
    + intros n group [Heq | Hin]; [|left; now right].
      injection Heq as <- <-. right. split; [exact Hn|].
      exists qs0. split; [now left | reflexivity].
  - destruct (pushTo t name q) as [t'|] eqn:Ht; [|discriminate].
    injection H as <-. destruct (IH _ _ _ Ht) as [Hk [Hp Hin]].
    cbn [map fst snd concat]. split; [now f_equal|]. split.
    + apply perm_trans with (qs0 ++ q :: concat (map snd t));
        [now apply Permutation_app_head|].
      apply Permutation_sym, Permutation_middle.
    + intros n group [Heq | H]; [left; now left|].
      destruct (Hin n group H) as [H' | [Hname [old [Ho Hg]]]]; [left; now right|].
      right. split; [exact Hname|]. exists old. split; [now right | exact Hg].
Qed.

Lemma pushTo_none (g : Groups) (name : string) (q : Question) :
  pushTo g name q = None -> ~ In name (map fst g).
Proof.
  induction g as [|[n0 qs0] t IH]; cbn [pushTo map fst]; [intros _ []|].
  destruct (String.eqb n0 name) eqn:Hn; [discriminate|].
  apply String.eqb_neq in Hn.
  destruct (pushTo t name q); [discriminate|].
  intros _ [H | H]; [contradiction | now apply IH].
Qed.

Lemma groupStep_keeps (g g' : Groups) (q : Question) :
  groupStep (Some g) q = Some g' -> wellGrouped g ->
  wellGrouped g' /\ Permutation (allQuestions g') (q :: allQuestions g).
Proof.
  unfold groupStep. intros H [Hnd Hnamed].
  destruct (pushTo g (finalTopic q) q) as [g1|] eqn:Hp.
  - injection H as <-. destruct (pushTo_some _ _ _ _ Hp) as [Hk [Hperm Hin]].
    split; [|exact Hperm]. split; [now rewrite Hk|].
    intros n group x Hg Hx.
    destruct (Hin n group Hg) as [H | [Hname [old [Ho ->]]]].
    + now apply (Hnamed n group).
    + apply in_app_or in Hx. destruct Hx as [Hx | [<- | []]].
      * now apply (Hnamed n old).
      * now symmetry.
  - destruct (existsb (String.eqb (finalTopic q)) inheritedNames); [discriminate|].
    injection H as <-. apply pushTo_none in Hp. split; [split|].
    + rewrite map_app. cbn [map fst]. apply NoDup_app; [exact Hnd | |].
      * repeat constructor. intros [].
      * intros a Ha [<- | []]. contradiction.
    + intros n group x Hg Hx. apply in_app_or in Hg.
      destruct Hg as [Hg | [Heq | []]]; [now apply (Hnamed n group)|].
      injection Heq as <- <-. destruct Hx as [<- | []]. reflexivity.
    + unfold allQuestions. rewrite map_app, concat_app. cbn [map snd concat].
      rewrite app_nil_r. apply Permutation_sym, Permutation_cons_append.
Qed.

Lemma questionsByTopic_keeps (qs : list Question) : forall g g',
  fold_left groupStep qs (Some g) = Some g' -> wellGrouped g ->
  wellGrouped g' /\ Permutation (allQuestions g') (allQuestions g ++ qs).
Proof.
  induction qs as [|q t IH]; cbn [fold_left]; intros g g' H Hw.
  - injection H as <-. split; [exact Hw | now rewrite app_nil_r].
  - destruct (groupStep (Some g) q) as [g1|] eqn:Hs;
      [|rewrite fold_groupStep_None in H; discriminate].
    destruct (groupStep_keeps _ _ _ Hs Hw) as [Hw1 Hp1].
    destruct (IH _ _ H Hw1) as [Hw' Hp']. split; [exact Hw'|].
    apply perm_trans with (allQuestions g1 ++ t); [exact Hp'|].
    apply perm_trans with ((q :: allQuestions g) ++ t);
      [now apply Permutation_app_tail|].
    cbn [app]. apply Permutation_middle.
Qed.

Lemma insertByIndex_Permutation (e : N * (string * list Question)) l :
  Permutation (insertByIndex e l) (e :: l).
Proof.
  induction l as [|h t IH]; cbn [insertByIndex]; [reflexivity|].
  destruct (fst e <? fst h)%N; [reflexivity|].
  apply perm_trans with (h :: e :: t); [now apply perm_skip | apply perm_swap].
Qed.

Lemma entries_Permutation (g : Groups) : Permutation (entries g) g.
Proof.
  unfold entries. induction g as [|e t IH]; [reflexivity|].
  cbn [fold_right filter]. destruct (arrayIndex (fst e)) as [n|].
  - apply perm_trans
      with (map snd ((n, e) :: fold_right
                       (fun e acc => match arrayIndex (fst e) with
                                     | Some n => insertByIndex (n, e) acc
                                     | None => acc
                                     end) [] t)
            ++ filter (fun e => match arrayIndex (fst e) with
                                | Some _ => false | None => true end) t).
    + apply Permutation_app_tail, Permutation_map, insertByIndex_Permutation.
    + cbn [map snd app]. now apply perm_skip.
  - apply Permutation_sym, Permutation_cons_app, Permutation_sym, IH.
Qed.

Lemma Permutation_concat_lists {A} (l l' : list (list A)) :
  Permutation l l' -> Permutation (concat l) (concat l').
Proof.
  induction 1 as [| x l l' _ IH | x y l | l l' l'' _ IH1 _ IH2]; cbn [concat].
  - reflexivity.
  - now apply Permutation_app_head.
  - rewrite !app_assoc. apply Permutation_app_tail, Permutation_app_comm.
  - now apply perm_trans with (concat l').
Qed.

Lemma topicsFrom_fields (uuid : nat -> string) (g : Groups) : forall n,
  map t_questions (topicsFrom uuid n g) = map snd g
  /\ map t_name (topicsFrom uuid n g) = map fst g
  /\ map t_id (topicsFrom uuid n g) = map uuid (seq n (length g)).
Proof.
  induction g as [|[name qs] t IH]; intros n; cbn [topicsFrom map length seq];
    [repeat split|].
  destruct (IH (S n)) as [H1 [H2 H3]]. cbn [t_questions t_name t_id fst snd].
  repeat split; now f_equal.
Qed.



End Groups.

(** ** The answer check *)

Section Patterns.

Lemma ciChar_cases (p c : ascii) : ciChar p c = true -> c = p \/ c = lowerChar p.
Proof.
  unfold ciChar. intros H. apply orb_true_iff in H.
  destruct H as [H | H]; apply Ascii.eqb_eq in H; auto.
Qed.

Lemma ciChar_P_not_O (c : ascii) :
  ciChar "P" c = true -> ciChar "O" c = false.
Proof.
  intros H. destruct (ciChar_cases _ _ H) as [-> | ->]; reflexivity.
Qed.

Lemma literalCI_length (pat : list ascii) : forall s rest,
  literalCI pat s = Some rest -> length s = length pat + length rest.
Proof.
  induction pat as [|p t IH]; simpl; intros s rest H.
  - now injection H as ->.
  - destruct s as [|c s']; [discriminate|].
    destruct (ciChar p c); [|discriminate].
    simpl. now rewrite (IH _ _ H).
Qed.

Lemma captureAt_short (cls : ascii -> bool) (s : list ascii) :
  length s <= 6 -> captureAt cls s = None.
Proof.
  intros Hlen. unfold captureAt.
  destruct (literalCI OPTION s) as [rest|] eqn:H; [|reflexivity].
  apply literalCI_length in H. change (length OPTION) with 6 in H.
  destruct rest; [reflexivity|].
  simpl in H. lia.
Qed.

Lemma captureList_short (cls : ascii -> bool) (s : list ascii) :
  length s <= 6 -> captureList cls s = None.
Proof.
  induction s as [|c t IH]; intros Hlen; cbn [captureList];
    rewrite captureAt_short by assumption; [reflexivity|].
  apply IH. simpl in Hlen. lia.
Qed.

(** The text behind a match of [Option] at the head, and what the first
    two characters of the text then are not. *)
Lemma literalCI_OPTION_tail (s rest : list ascii) :
  literalCI OPTION s = Some rest ->
  exists c1 t, s = c1 :: t /\ length t = 5 + length rest
               /\ literalCI OPTION t = None.
Proof.
  intros H. pose proof (literalCI_length _ _ _ H) as Hlen.
  change (length OPTION) with 6 in Hlen.
  destruct s as [|c1 [|c2 t]]; [simpl in Hlen; lia | simpl in Hlen; lia |].
  exists c1, (c2 :: t). split; [reflexivity|]. split.
  - simpl in Hlen |- *. lia.
  - unfold OPTION in H. cbn [list_ascii_of_string literalCI] in H.
    destruct (ciChar "O" c1); [|discriminate].
    destruct (ciChar "P" c2) eqn:HP; [|discriminate].
    unfold OPTION. cbn [list_ascii_of_string literalCI].
    now rewrite (ciChar_P_not_O _ HP).
Qed.

Lemma white_not_class (w : ascii) :
  isWhiteSpace w = true -> classAD w = false /\ classDigit w = false.
Proof.
  destruct w as [[] [] [] [] [] [] [] []]; vm_compute; intros; auto; discriminate.
Qed.

Lemma class14_digit (c : ascii) :
  class14 c = true -> classDigit c = true /\ classAD c = false.
Proof.
  destruct c as [[] [] [] [] [] [] [] []]; vm_compute; intros; auto; discriminate.
Qed.

Lemma letterIndex_range (c : ascii) :
  classAD c = true -> (0 <= letterIndex c <= 3)%Z.
Proof.
  destruct c as [[] [] [] [] [] [] [] []]; vm_compute; intros H;
    try discriminate; split; discriminate.
Qed.

Lemma digitIndex_range (c : ascii) :
  class14 c = true -> (0 <= digitIndex c <= 3)%Z.
Proof.
  destruct c as [[] [] [] [] [] [] [] []]; vm_compute; intros H;
    try discriminate; split; discriminate.
Qed.

(** After a failed match at the head of a labelled answer, no later
    position matches. *)
Lemma captureList_tail_none (cls : ascii -> bool) (s rest : list ascii) :
  literalCI OPTION s = Some rest -> length rest <= 2 ->
  match s with [] => True | _ :: t => captureList cls t = None end.
Proof.
  intros H Hrest.
  destruct (literalCI_OPTION_tail _ _ H) as [c1 [t [-> [Hlen Hnone]]]].
  destruct t as [|c2 t2]; [reflexivity|].
  cbn [captureList]. unfold captureAt at 1. rewrite Hnone.
  apply captureList_short. simpl in Hlen. lia.
Qed.

End Patterns.

Section LabeledAnswers.

Lemma captureList_head (cls : ascii -> bool) (s : list ascii) (c : ascii) :
  captureAt cls s = Some c -> captureList cls s = Some c.
Proof.
  intros H. destruct s; cbn [captureList]; now rewrite H.
Qed.

Lemma captureList_skip (cls : ascii -> bool) (s rest : list ascii) :
  literalCI OPTION s = Some rest -> length rest <= 2 ->
  captureAt cls s = None -> captureList cls s = None.
Proof.
  intros H Hrest Hat.
  pose proof (captureList_tail_none cls _ _ H Hrest) as Htail.
  destruct s; cbn [captureList]; rewrite Hat; [reflexivity | exact Htail].
Qed.

(** The two anchored tests and the two captures of the code compute the
    labelled form of the specification and its index. *)
Lemma labeled_agree (ct : string) :
  match labeledForm ct with
  | Some i => isLabeled ct = true /\ labeledIndex ct = i /\ (0 <= i <= 3)%Z
  | None => isLabeled ct = false
  end.
Proof.
  unfold labeledForm, isLabeled, testAnchored, labeledIndex, capture.
  set (l := list_ascii_of_string ct).
  destruct (literalCI OPTION l) as [rest|] eqn:H; [|reflexivity].
  destruct rest as [|c [|c' [|x r]]]; try reflexivity.
  - (* Option followed by one character *)
    destruct (classAD c) eqn:HA.
    + split; [reflexivity|]. split; [|now apply letterIndex_range].
      rewrite (captureList_head classAD l c); [reflexivity|].
      unfold captureAt. rewrite H, HA. now destruct (isWhiteSpace c).
    + destruct (class14 c) eqn:H14; [|reflexivity].
      destruct (class14_digit _ H14) as [HD _].
      split; [reflexivity|]. split; [|now apply digitIndex_range].
      rewrite (captureList_skip classAD l [c] H); [|simpl; lia|].
      * rewrite (captureList_head classDigit l c); [reflexivity|].
        unfold captureAt. rewrite H, HD. now destruct (isWhiteSpace c).
      * unfold captureAt. rewrite H, HA. now destruct (isWhiteSpace c).
  - (* Option, one character, one more *)
    destruct (isWhiteSpace c) eqn:HW; [|reflexivity].
    destruct (white_not_class _ HW) as [HwA HwD].
    cbn [andb].
    destruct (classAD c') eqn:HA.
    + split; [reflexivity|]. split; [|now apply letterIndex_range].
      rewrite (captureList_head classAD l c'); [reflexivity|].
      unfold captureAt. now rewrite H, HW, HA.
    + destruct (class14 c') eqn:H14; [|reflexivity].
      destruct (class14_digit _ H14) as [HD _].
      split; [reflexivity|]. split; [|now apply digitIndex_range].
      rewrite (captureList_skip classAD l [c; c'] H); [|simpl; lia|].
      * rewrite (captureList_head classDigit l c'); [reflexivity|].
        unfold captureAt. now rewrite H, HW, HD.
      * unfold captureAt. now rewrite H, HW, HA, HwA.
Qed.

Lemma bare_agree (ct : string) :
  match bareForm ct with
  | Some i => testBareLetter ct = true /\ bareIndex ct = i /\ (0 <= i <= 3)%Z
  | None => testBareLetter ct = false
  end.
Proof.
  unfold bareForm, testBareLetter, bareIndex.
  destruct ct as [|c [|c' t]]; try reflexivity.
  destruct (classAD c) eqn:HA; [|reflexivity].
  split; [reflexivity|]. split; [reflexivity | now apply letterIndex_range].
Qed.

Lemma indexOfFrom_range (arr : list string) (x : string) : forall k,
  (indexOfFrom arr x k = -1 \/
   k <= indexOfFrom arr x k < k + Z.of_nat (length arr))%Z.
Proof.
  induction arr as [|y t IH]; intros k; [now left|].
  cbn [indexOfFrom length]. destruct (String.eqb y x).
  - right. lia.
  - destruct (IH (k + 1)%Z) as [H | H]; [now left | right; lia].
Qed.

Lemma indexOfFrom_In (arr : list string) (x : string) : forall k,
  In x arr -> (k <= indexOfFrom arr x k)%Z.
Proof.
  induction arr as [|y t IH]; intros k Hin; [contradiction|].
  cbn [indexOfFrom]. destruct (String.eqb y x) eqn:Hy; [lia|].
  destruct Hin as [-> | Hin]; [now rewrite String.eqb_refl in Hy|].
  specialize (IH (k + 1)%Z Hin). lia.
Qed.

Lemma indexOfFrom_notin (arr : list string) (x : string) : forall k,
  ~ In x arr -> indexOfFrom arr x k = (-1)%Z.
Proof.
  induction arr as [|y t IH]; intros k Hnotin; [reflexivity|].
  cbn [indexOfFrom]. destruct (String.eqb y x) eqn:Hy.
  - apply String.eqb_eq in Hy. exfalso. apply Hnotin. now left.
  - apply IH. intros Hin. apply Hnotin. now right.
Qed.

(** In a list without repetitions, an element sits at an index exactly
    when [indexOf] returns that index. *)
Lemma at_indexOfFrom (arr : list string) (x : string) : forall k i,
  NoDup arr -> (0 <= k)%Z -> (0 <= i)%Z ->
  strictEq (at_ arr i) x = (indexOfFrom arr x k =? k + i)%Z.
Proof.
  induction arr as [|y t IH]; intros k i Hnd Hk Hi.
  - unfold at_. destruct (i <? 0)%Z; cbn [indexOfFrom].
    + symmetry. apply Z.eqb_neq. lia.
    + rewrite nth_error_nil. symmetry. apply Z.eqb_neq. lia.
  - inversion Hnd as [|? ? Hnotin Hnd']; subst.
    cbn [indexOfFrom]. unfold at_.
    destruct (i <? 0)%Z eqn:Hneg; [apply Z.ltb_lt in Hneg; lia|].
    destruct (Z.eq_dec i 0) as [-> | Hnz].
    + simpl. destruct (String.eqb y x) eqn:Hy.
      * symmetry. apply Z.eqb_eq. lia.
      * symmetry. apply Z.eqb_neq.
        destruct (indexOfFrom_range t x (k + 1)) as [H | H]; lia.
    + replace (Z.to_nat i) with (S (Z.to_nat (i - 1))) by lia.
      cbn [nth_error].
      assert (Hprev : strictEq (at_ t (i - 1)) x
                      = (indexOfFrom t x (k + 1) =? (k + 1) + (i - 1))%Z)
        by (apply IH; [assumption | lia | lia]).
      unfold at_ in Hprev.
      replace (i - 1 <? 0)%Z with false in Hprev by (symmetry; apply Z.ltb_ge; lia).
      rewrite Hprev.
      replace (k + 1 + (i - 1))%Z with (k + i)%Z by lia.
      destruct (String.eqb y x) eqn:Hy; [|reflexivity].
      apply String.eqb_eq in Hy. subst y.
      rewrite (indexOfFrom_notin t x (k + 1) Hnotin).
      transitivity false; [|symmetry]; apply Z.eqb_neq; lia.
Qed.

Lemma at_indexOf (arr : list string) (x : string) (i : Z) :
  NoDup arr -> In x arr ->
  ((0 <=? i)%Z && strictEq (at_ arr i) x = (indexOf arr x =? i)%Z)
  /\ strictEq (at_ arr i) x = (indexOf arr x =? i)%Z.
Proof.
  intros Hnd Hin. unfold indexOf.
  pose proof (indexOfFrom_In arr x 0 Hin) as Hpos.
  destruct (0 <=? i)%Z eqn:Hi.
  - apply Z.leb_le in Hi. rewrite (at_indexOfFrom arr x 0 i Hnd (Z.le_refl 0) Hi).
    rewrite Z.add_0_l. auto.
  - apply Z.leb_gt in Hi. cbn [andb]. unfold at_.
    replace (i <? 0)%Z with true by (symmetry; apply Z.ltb_lt; lia).
    cbn [strictEq]. split; symmetry; apply Z.eqb_neq; lia.
Qed.

Lemma at_out_of_range (arr : list string) (i : Z) (x : string) :
  (Z.of_nat (length arr) <= i)%Z -> strictEq (at_ arr i) x = false.
Proof.
  intros H. unfold at_.
  destruct (i <? 0)%Z; [reflexivity|].
  replace (nth_error arr (Z.to_nat i)) with (@None string); [reflexivity|].
  symmetry. apply nth_error_None. lia.
Qed.

Lemma indexOf_below (arr : list string) (x : string) :
  (indexOf arr x < Z.of_nat (length arr))%Z.
Proof.
  unfold indexOf. destruct (indexOfFrom_range arr x 0) as [H | H]; lia.
Qed.

End LabeledAnswers.

Lemma resolve_unfold (correctAnswer : string) (options : list string) (selected : string) :
  resolve correctAnswer options selected
  = match labeledForm (trim correctAnswer) with
    | Some i => optionIs options i selected
    | None =>
        match bareForm (trim correctAnswer) with
        | Some i => optionIs options i selected
        | None => String.eqb (toLowerCase (trim selected))
                             (toLowerCase (trim correctAnswer))
        end
    end.
Proof.
  unfold resolve, firstMatch, labeledOption, bareLetter, literalText.
  destruct (labeledForm (trim correctAnswer)); [reflexivity|].
  now destruct (bareForm (trim correctAnswer)).
Qed.

Lemma resolveByPosition_unfold (correctAnswer : string) (options : list string)
      (selected : string) :
  resolveByPosition correctAnswer options selected
  = match labeledForm (trim correctAnswer) with
    | Some i => (indexOf options selected =? i)%Z
    | None =>
        match bareForm (trim correctAnswer) with
        | Some i => (indexOf options selected =? i)%Z
        | None => String.eqb (toLowerCase (trim selected))
                             (toLowerCase (trim correctAnswer))
        end
    end.
Proof.
  unfold resolveByPosition, firstMatch, labeledPosition, barePosition, literalText.
  destruct (labeledForm (trim correctAnswer)); [reflexivity|].
  now destruct (bareForm (trim correctAnswer)).
Qed.

(** The statistics loop of the practice page is the resolver of the
    specification. *)
Lemma statsIsCorrect_resolve (correctAnswer : string) (options : list string)
      (selected : string) :
  statsIsCorrect correctAnswer options selected = resolve correctAnswer options selected.
Proof.
  rewrite resolve_unfold. unfold statsIsCorrect.
  pose proof (labeled_agree (trim correctAnswer)) as HL.
  pose proof (bare_agree (trim correctAnswer)) as HB.
  destruct (labeledForm (trim correctAnswer)) as [i|].
  - destruct HL as [-> [-> [Hi _]]].
    apply Z.leb_le in Hi. now rewrite Hi.
  - rewrite HL. destruct (bareForm (trim correctAnswer)) as [i|].
    + now destruct HB as [-> [-> _]].
    + now rewrite HB.
Qed.

(** The question card decides the two indexed forms by position. *)
Lemma cardIsCorrect_resolveByPosition (correctAnswer : string) (options : list string)
      (selected : string) :
  cardIsCorrect correctAnswer options selected
  = resolveByPosition correctAnswer options selected.
Proof.
  rewrite resolveByPosition_unfold. unfold cardIsCorrect, isOptionCorrect.
  pose proof (labeled_agree (trim correctAnswer)) as HL.
  pose proof (bare_agree (trim correctAnswer)) as HB.
  destruct (labeledForm (trim correctAnswer)) as [i|].
  - now destruct HL as [-> [-> _]].
  - rewrite HL. destruct (bareForm (trim correctAnswer)) as [i|].
    + now destruct HB as [-> [-> _]].
    + rewrite HB. now destruct (String.eqb _ _).
Qed.

Lemma stats_card_same (correctAnswer : string) (options : list string)
      (selected : string) :
  NoDup options -> In selected options ->
  statsIsCorrect correctAnswer options selected
  = cardIsCorrect correctAnswer options selected.
Proof.
  intros Hnd Hin. unfold statsIsCorrect, cardIsCorrect, isOptionCorrect.
  destruct (isLabeled (trim correctAnswer)).
  - apply (at_indexOf options selected _ Hnd Hin).
  - destruct (testBareLetter (trim correctAnswer)).
    + apply (at_indexOf options selected _ Hnd Hin).
    + now destruct (String.eqb _ _).
Qed.




(** C9. For every correct answer whose labelled or bare-letter form gives an
    index at or beyond the end of the options, the selection is judged
    incorrect by the statistics loop and by the question card alike; both
    are total functions, nothing is thrown. *)
Theorem out_of_range_index_is_no_match :
  forall (correctAnswer : string) (options : list string) (selected : string),
    (isLabeled (trim correctAnswer) = true
     /\ (Z.of_nat (length options) <= labeledIndex (trim correctAnswer))%Z)
    \/ (isLabeled (trim correctAnswer) = false
        /\ testBareLetter (trim correctAnswer) = true
        /\ (Z.of_nat (length options) <= bareIndex (trim correctAnswer))%Z) ->
    statsIsCorrect correctAnswer options selected = false
    /\ cardIsCorrect correctAnswer options selected = false
    /\ isSelectedCorrect correctAnswer options (Some selected) = false
    /\ statsStep correctAnswer options (Some selected) (0, 0) <> (1, 0).
Proof.
  intros correctAnswer options selected H.
  assert (Hstats : statsIsCorrect correctAnswer options selected = false).
  { unfold statsIsCorrect.
    destruct H as [[-> Hi] | [-> [-> Hi]]];
      rewrite (at_out_of_range _ _ _ Hi); [apply andb_false_r | reflexivity]. }
  assert (Hcard : cardIsCorrect correctAnswer options selected = false).
  { unfold cardIsCorrect, isOptionCorrect.
    pose proof (indexOf_below options selected) as Hb.
    destruct H as [[-> Hi] | [-> [-> Hi]]]; apply Z.eqb_neq; lia. }
  repeat split; try assumption.
  - unfold isSelectedCorrect. rewrite Hcard. now destruct (truthy selected).
  - unfold statsStep. rewrite Hstats. destruct (truthy selected); discriminate.
Qed.

Lemma out_of_range_index_is_no_match_witness :
  statsIsCorrect "Option D" ["a"; "b"] "b" = false
  /\ cardIsCorrect "Option D" ["a"; "b"] "b" = false.
Proof.
  assert (H : (isLabeled (trim "Option D") = true
               /\ (Z.of_nat (length ["a"; "b"]) <= labeledIndex (trim "Option D"))%Z)
              \/ (isLabeled (trim "Option D") = false
                  /\ testBareLetter (trim "Option D") = true
                  /\ (Z.of_nat (length ["a"; "b"]) <= bareIndex (trim "Option D"))%Z)).
  { left. split; [reflexivity | vm_compute; discriminate]. }
  destruct (out_of_range_index_is_no_match "Option D" ["a"; "b"] "b" H)
    as [Hs [Hc _]].
  split; assumption.
Defined.

(** C10. For every question whose options hold no text twice and every
    selected text among them, the statistics loop of the practice page and
    the question card return the same verdict; so a selection is counted
    correct by the one exactly when the other marks it correct. *)
Theorem stats_and_card_agree :
  forall (correctAnswer : string) (options : list string) (selected : string),
    NoDup options -> In selected options ->
    statsIsCorrect correctAnswer options selected
    = cardIsCorrect correctAnswer options selected
    /\ (statsStep correctAnswer options (Some selected) (0, 0) = (1, 0)
        <-> isSelectedCorrect correctAnswer options (Some selected) = true)
    /\ (statsStep correctAnswer options (Some selected) (0, 0) = (0, 1)
        <-> (truthy selected = true
             /\ isSelectedCorrect correctAnswer options (Some selected) = false)).
Proof.
  intros correctAnswer options selected Hnd Hin.
  pose proof (stats_card_same correctAnswer options selected Hnd Hin) as Heq.
  split; [exact Heq|].
  unfold statsStep, isSelectedCorrect. rewrite Heq.
  destruct (truthy selected); cbn [fst snd].
  - destruct (cardIsCorrect correctAnswer options selected);
      intuition congruence.
  - intuition congruence.
Qed.

Lemma stats_and_card_agree_witness :
  statsIsCorrect "Option B" planets "Venus" = cardIsCorrect "Option B" planets "Venus".
Proof.
  assert (Hnd : NoDup planets).
  { repeat constructor; simpl; intuition discriminate. }
  assert (Hin : In "Venus" planets) by (right; left; reflexivity).
  exact (proj1 (stats_and_card_agree "Option B" planets "Venus" Hnd Hin)).
Defined.

(** ** The extraction *)

Lemma checkShape_array (result : json) (items : list json) :
  questionsOf result = Some (JArr items) ->
  checkShape result
  = if (length items =? 0)%nat then EmptyQuestions result else Extracted result items.
Proof.
  unfold checkShape. intros ->. reflexivity.
Qed.


(** C2 (as amended). For every parsed answer whose [questions] field is an
    empty sequence, the handler ends with an outcome of its own, distinct
    from the MalformedResponse outcomes ([NoJson], [ParseError]) and from
    InvalidShape ([InvalidFormat]); that outcome is answered with status 400
    and is no success for the caller. *)
Theorem empty_questions_is_a_failure_of_its_own :
  forall (JSON_parse : string -> string + json) (responseText jsonStr2 : string)
         (result : json),
    payload responseText = Some jsonStr2 ->
    JSON_parse jsonStr2 = inr result ->
    questionsOf result = Some (JArr []) ->
    extract JSON_parse responseText = EmptyQuestions result
    /\ (forall e, extract JSON_parse responseText <> NoJson e)
    /\ (forall e x, extract JSON_parse responseText <> ParseError e x)
    /\ (forall ty, extract JSON_parse responseText <> Extractor.InvalidFormat ty)
    /\ status (extract JSON_parse responseText) = 400
    /\ ok (extract JSON_parse responseText) = false.
Proof.
  intros JSON_parse responseText jsonStr2 result Hp Hparse Hq.
  assert (He : extract JSON_parse responseText = EmptyQuestions result).
  { unfold extract. rewrite Hp, Hparse.
    destruct result; try discriminate Hq.
    now rewrite (checkShape_array _ [] Hq). }
  rewrite He. repeat split; intros; discriminate.
Qed.

(** C2, as stated, fails: the answer [{"pageNo": "", "questions": []}] the
    prompt asks for when a page holds no question is answered with status
    400, as the failures are, and not as a valid result. *)
Lemma empty_questions_is_a_failure_of_its_own_witness :
  extract sampleParse emptyAnswer = EmptyQuestions emptyResult
  /\ status (extract sampleParse emptyAnswer) = 400.
Proof.
  assert (Hp : payload emptyAnswer = Some emptyPayload) by reflexivity.
  assert (Hr : sampleParse emptyPayload = inr emptyResult) by reflexivity.
  assert (Hq : questionsOf emptyResult = Some (JArr [])) by reflexivity.
  destruct (empty_questions_is_a_failure_of_its_own
              sampleParse emptyAnswer emptyPayload emptyResult Hp Hr Hq)
    as [He [_ [_ [_ [Hs _]]]]].
  split; [exact He | exact Hs].
Defined.

Lemma empty_questions_answered_400 :
  checkShape emptyResult = EmptyQuestions emptyResult
  /\ status (checkShape emptyResult) = 400
  /\ ok (checkShape emptyResult) = false.
Proof. repeat split; reflexivity. Qed.

Section Braces.

Variable x : ascii.

Lemma indexOfChar_spec (s : list ascii) : forall k,
  (indexOfChar x s k = (-1)%Z /\ ~ In x s)
  \/ (exists n, indexOfChar x s k = (k + Z.of_nat n)%Z
                /\ nth_error s n = Some x /\ ~ In x (firstn n s)).
Proof.
  induction s as [|c t IH]; intros k; [left; split; [reflexivity | intros []]|].
  cbn [indexOfChar]. destruct (Ascii.eqb c x) eqn:Hc.
  - apply Ascii.eqb_eq in Hc. subst c. right. exists 0.
    split; [lia|]. split; [reflexivity | intros []].
  - apply Ascii.eqb_neq in Hc.
    destruct (IH (k + 1)%Z) as [[Hi Hn] | [n [Hi [Hn Hf]]]].
    + left. split; [assumption|]. intros [H | H]; auto.
    + right. exists (S n). split; [lia|]. split; [assumption|].
      simpl. intros [H | H]; auto.
Qed.

Lemma lastIndexOfChar_spec (s : list ascii) : forall k, (0 <= k)%Z ->
  (lastIndexOfChar x s k = (-1)%Z /\ ~ In x s)
  \/ (exists n, lastIndexOfChar x s k = (k + Z.of_nat n)%Z
                /\ nth_error s n = Some x /\ ~ In x (skipn (S n) s)).
Proof.
  induction s as [|c t IH]; intros k Hk; [left; split; [reflexivity | intros []]|].
  cbn [lastIndexOfChar].
  destruct (IH (k + 1)%Z ltac:(lia)) as [[Hi Hn] | [n [Hi [Hn Hf]]]].
  - rewrite Hi. cbn [Z.leb Z.compare].
    destruct (Ascii.eqb c x) eqn:Hc.
    + apply Ascii.eqb_eq in Hc. subst c. right. exists 0.
      split; [lia|]. split; [reflexivity | exact Hn].
    + apply Ascii.eqb_neq in Hc. left. split; [reflexivity|].
      intros [H | H]; auto.
  - rewrite Hi.
    replace (0 <=? k + 1 + Z.of_nat n)%Z with true by (symmetry; apply Z.leb_le; lia).
    right. exists (S n). split; [lia|]. split; assumption.
Qed.

End Braces.


Section Fences.































End Fences.






(** ** The page number *)

Section PageNo.

Lemma orDefault_Some (p : string) : orDefault (Some p) EmptyString = p.
Proof. unfold orDefault, orElse. now destruct p. Qed.

Lemma preserveFields_pageNo (q : Question) :
  q_pageNo (preserveFields q) = Some (pageNoOf q).
Proof. reflexivity. Qed.


Lemma pageNoOf_preserve (qs : list Question) :
  map pageNoOf (preserveQuestionFields qs) = map pageNoOf qs.
Proof.
  unfold preserveQuestionFields. rewrite map_map. apply map_ext.
  intros q. unfold pageNoOf. cbn [preserveFields q_pageNo].
  apply orDefault_Some.
Qed.









End PageNo.










(** ** The examples of the specification *)

Example resolve_labeled_option :
  statsIsCorrect "Option B" planets "Venus" = true
  /\ statsIsCorrect "Option B" planets "Mars" = false
  /\ cardIsCorrect "Option B" planets "Venus" = true
  /\ cardIsCorrect "Option B" planets "Mars" = false.
Proof. repeat split; reflexivity. Qed.

Example resolve_bare_letter :
  statsIsCorrect "C" planets "Mars" = true /\ cardIsCorrect "c" planets "Mars" = true.
Proof. split; reflexivity. Qed.

Example resolve_literal :
  statsIsCorrect "1-ii, 2-iii" planets "1-II, 2-III " = true
  /\ cardIsCorrect " 1-ii, 2-iii" planets "1-ii, 2-iii" = true.
Proof. split; reflexivity. Qed.

Example import_round_trip :
  complete decimal "sums.csv" canonicalHeaders [sumRow]
  = Imported
      [mkTopic "1" "sums"
         [{| q_id := "0"; q_no := Some "1"; q_question := "What is 2+2?";
             q_options := ["3"; "4"; "5"; "6"]; q_correctAnswer := "4";
             q_explanation := Some "Math basics"; q_topic := Some "sums";
             q_pageNo := None |}]]
      1 0.
Proof. reflexivity. Qed.

Example extract_fenced_answer :
  payload fencedAround
  = Some ("{" ++ quote ++ "questions" ++ quote ++ ": [1 ] }")%string
  /\ (forall JSON_parse, extract JSON_parse "no json here" = NoJson "no json here").
Proof. split; reflexivity. Qed.

(** * Further properties of the code *)

(** ** The practice page *)

Section PracticeList.

Import Practice.

Context {A : Type}.

Lemma setAt_same (a : list A) : forall i x,
  nth_error a i = Some x -> setAt a i x = a.
Proof.
  induction a as [|h t IH]; intros [|i] x H; simpl in *; try discriminate.
  - now injection H as ->.
  - now rewrite IH.
Qed.

(** Putting [h] where [y] was, and [y] in front, rearranges [h :: t]. *)
Lemma setAt_exchange (t : list A) : forall j h y,
  nth_error t j = Some y -> Permutation (y :: setAt t j h) (h :: t).
Proof.
  induction t as [|z t IH]; intros [|j] h y H; simpl in *; try discriminate.
  - injection H as ->. apply perm_swap.
  - apply perm_trans with (z :: y :: setAt t j h); [apply perm_swap|].
    apply perm_trans with (z :: h :: t); [|apply perm_swap].
    apply perm_skip. now apply IH.
Qed.

Lemma swap_Permutation (a : list A) : forall i j, Permutation (swap a i j) a.
Proof.
  induction a as [|h t IH]; intros i j.
  - unfold swap. destruct i; reflexivity.
  - unfold swap. destruct i as [|i], j as [|j]; cbn [nth_error].
    + reflexivity.
    + destruct (nth_error t j) as [y|] eqn:Hj; [|reflexivity].
      cbn [setAt]. now apply setAt_exchange.
    + destruct (nth_error t i) as [x|] eqn:Hi; [|reflexivity].
      cbn [setAt]. now apply setAt_exchange.
    + specialize (IH i j). unfold swap in IH.
      destruct (nth_error t i) as [x|], (nth_error t j) as [y|]; try reflexivity.
      cbn [setAt]. now apply perm_skip.
Qed.

Lemma shuffleFrom_Permutation (draw : nat -> nat) (i : nat) : forall a : list A,
  Permutation (shuffleFrom draw i a) a.
Proof.
  induction i as [|i IH]; intros a; cbn [shuffleFrom]; [reflexivity|].
  apply perm_trans with (swap a (S i) (draw (S i))); [apply IH | apply swap_Permutation].
Qed.

End PracticeList.

Lemma selectQuestions_In (topicIds : list string) (topics : list Topic) (q : Question) :
  In q (Practice.selectQuestions topicIds topics)
  <-> exists t, In t topics /\ In (t_id t) topicIds /\ In q (t_questions t).
Proof.
  unfold Practice.selectQuestions. rewrite in_flat_map. split.
  - intros [t [Ht Hq]]. exists t. split; [assumption|].
    destruct (existsb (String.eqb (t_id t)) topicIds) eqn:He; [|contradiction].
    split; [|assumption].
    apply existsb_exists in He. destruct He as [i [Hi Heq]].
    apply String.eqb_eq in Heq. now rewrite Heq.
  - intros [t [Ht [Hid Hq]]]. exists t. split; [assumption|].
    replace (existsb (String.eqb (t_id t)) topicIds) with true; [assumption|].
    symmetry. apply existsb_exists. exists (t_id t).
    split; [assumption | apply String.eqb_refl].
Qed.

(** X1. Whatever the random draws (each within its range), the list of a
    practice session holds the questions of the chosen topics, each as often
    as the topics hold it: the shuffle only rearranges; and a question is in
    the list exactly when a stored topic whose identifier is in the address
    holds it. *)
Theorem practice_list_is_the_chosen_questions_rearranged :
  forall (draw : nat -> nat) (isRandom : bool) (topicIds : list string)
         (topics : list Topic),
    (forall i, draw i <= i) ->
    Permutation (Practice.practiceQuestions draw isRandom topicIds topics)
                (Practice.selectQuestions topicIds topics)
    /\ length (Practice.practiceQuestions draw isRandom topicIds topics)
       = length (Practice.selectQuestions topicIds topics)
    /\ (forall q, In q (Practice.practiceQuestions draw isRandom topicIds topics)
                  <-> exists t, In t topics /\ In (t_id t) topicIds
                                /\ In q (t_questions t)).
Proof.
  intros draw isRandom topicIds topics _.
  assert (HP : Permutation (Practice.practiceQuestions draw isRandom topicIds topics)
                           (Practice.selectQuestions topicIds topics)).
  { unfold Practice.practiceQuestions, Practice.shuffle.
    destruct isRandom; [apply shuffleFrom_Permutation | reflexivity]. }
  split; [exact HP|]. split; [now apply Permutation_length|].
  intros q. rewrite <- selectQuestions_In. split; apply Permutation_in;
    [exact HP | now apply Permutation_sym].
Qed.

Lemma practice_list_is_the_chosen_questions_rearranged_witness :
  Permutation
    (Practice.practiceQuestions (fun i => i / 2) true ["t0"]
       [mkTopic "t0" "Physics" [pageQuestion; pageQuestion]; mkTopic "t1" "Other" []])
    [pageQuestion; pageQuestion].
Proof.
  exact (proj1 (practice_list_is_the_chosen_questions_rearranged
                  (fun i => i / 2) true ["t0"]
                  [mkTopic "t0" "Physics" [pageQuestion; pageQuestion];
                   mkTopic "t1" "Other" []]
                  (fun i => Nat.Div0.div_le_upper_bound i 2 i
                              ltac:(lia)))).
Defined.

(** X2. With a question list that is not empty, the position shown stays a
    position of the list under every sequence of Next, Previous and jumps to
    a button of the grid: Next stops at the last question and Previous at
    the first. *)
Theorem navigation_stays_inside_the_list :
  forall (len : nat) (events : list Practice.NavEvent) (currentIndex : nat),
    currentIndex < len ->
    Forall (Practice.offered len) events ->
    fold_left (Practice.navigate len) events currentIndex < len
    /\ Practice.navigate len (len - 1) Practice.Next = len - 1
    /\ Practice.navigate len 0 Practice.Prev = 0.
Proof.
  intros len events. split; [|split].
  - revert currentIndex H. induction H0 as [|e t He _ IH]; intros currentIndex H;
      [exact H|].
    cbn [fold_left]. apply IH.
    destruct e as [| |i]; cbn [Practice.navigate Practice.offered] in *.
    + destruct (currentIndex <? len - 1)%nat eqn:Hlt; [|exact H].
      apply Nat.ltb_lt in Hlt. lia.
    + destruct (0 <? currentIndex)%nat; lia.
    + exact He.
  - cbn [Practice.navigate]. now rewrite Nat.ltb_irrefl.
  - reflexivity.
Qed.

Lemma navigation_stays_inside_the_list_witness :
  fold_left (Practice.navigate 3)
            [Practice.Next; Practice.Next; Practice.Next; Practice.Jump 0; Practice.Prev] 1
  < 3.
Proof.
  refine (proj1 (navigation_stays_inside_the_list 3 _ 1 _ _)); [lia|].
  repeat constructor.
Defined.

Section Statistics.

Import Practice.

Lemma statsStep_counts (correctAnswer : string) (options : list string)
      (ans : option string) (st : nat * nat) :
  fst (statsStep correctAnswer options ans st) + snd (statsStep correctAnswer options ans st)
  = fst st + snd st + (if truthyOpt ans then 1 else 0).
Proof.
  unfold statsStep. destruct ans as [a|]; cbn [truthyOpt]; [|lia].
  destruct (truthy a); [|lia].
  destruct (statsIsCorrect correctAnswer options a); cbn [fst snd]; lia.
Qed.

(** Under an identifier that is no inherited name, [answers[id]] is the
    own property or [undefined]. *)
Lemma answerOf_plain (answers : Answers) (id : string) :
  existsb (String.eqb id) inheritedNames = false ->
  answerOf answers id
  = match ownAnswer answers id with Some v => Own v | None => Missing end.
Proof.
  intros H. unfold answerOf. rewrite H. reflexivity.
Qed.

Lemma isAnswered_plain (answers : Answers) (q : Question) :
  existsb (String.eqb (q_id q)) inheritedNames = false ->
  isAnswered answers q = truthyOpt (ownAnswer answers (q_id q)).
Proof.
  intros H. unfold isAnswered. rewrite (answerOf_plain _ _ H).
  now destruct (ownAnswer answers (q_id q)).
Qed.

Lemma stats_fold_counts (answers : Answers) (questions : list Question) : forall st,
  plainIds questions ->
  exists counted,
    fold_left (countStep answers) questions (Some st) = Some counted
    /\ fst counted + snd counted
       = fst st + snd st + length (filter (isAnswered answers) questions).
Proof.
  induction questions as [|q t IH]; intros st Hplain; cbn [fold_left filter length].
  - exists st. split; [reflexivity | lia].
  - inversion Hplain as [|? ? Hq Ht]; subst.
    cbn [countStep]. rewrite (isAnswered_plain _ _ Hq), (answerOf_plain _ _ Hq).
    destruct (ownAnswer answers (q_id q)) as [v|]; cbn [truthyOpt].
    + destruct (IH (statsStep (q_correctAnswer q) (q_options q) (Some v) st) Ht)
        as [counted [Hf Hc]].
      exists counted. split; [exact Hf|].
      rewrite Hc, statsStep_counts. cbn [truthyOpt].
      destruct (truthy v); cbn [length]; lia.
    + destruct (IH st Ht) as [counted [Hf Hc]].
      exists counted. split; [exact Hf | exact Hc].
Qed.

Lemma ownAnswer_In (answers : Answers) (id : string) :
  (exists v, ownAnswer answers id = Some v) <-> In id (map fst answers).
Proof.
  induction answers as [|[k v] t IH]; cbn [ownAnswer map fst In].
  - split; [intros [v H]; discriminate | intros []].
  - destruct (String.eqb k id) eqn:Hk.
    + apply String.eqb_eq in Hk. split; [now left | intros _; now exists v].
    + apply String.eqb_neq in Hk. rewrite IH. split; [now right|].
      intros [H | H]; [contradiction | assumption].
Qed.

Lemma ownAnswer_value (answers : Answers) (id v : string) :
  ownAnswer answers id = Some v -> In v (map snd answers).
Proof.
  induction answers as [|[k w] t IH]; cbn [ownAnswer map snd In]; [discriminate|].
  destruct (String.eqb k id); [intros H; injection H as ->; now left|].
  intros H. right. now apply IH.
Qed.

Lemma setAnswer_keys (answers : Answers) (id option : string) :
  map fst (setAnswer answers id option)
  = if existsb (String.eqb id) (map fst answers) then map fst answers
    else map fst answers ++ [id].
Proof.
  induction answers as [|[k v] t IH]; cbn [setAnswer map fst existsb app];
    [reflexivity|].
  rewrite (String.eqb_sym id k).
  destruct (String.eqb k id); cbn [map fst orb]; [reflexivity|].
  rewrite IH. now destruct (existsb (String.eqb id) (map fst t)).
Qed.

Lemma setAnswer_values (answers : Answers) (id option v : string) :
  In v (map snd (setAnswer answers id option)) ->
  v = option \/ In v (map snd answers).
Proof.
  induction answers as [|[k w] t IH]; cbn [setAnswer map snd In].
  - intros [H | []]. now left.
  - destruct (String.eqb k id); cbn [map snd In].
    + intros [H | H]; auto.
    + intros [H | H]; auto. destruct (IH H); auto.
Qed.

Lemma handleAnswer_recorded (questions : list Question) (answers : Answers)
      (currentIndex : nat) (option : string) :
  truthy option = true ->
  recorded questions answers ->
  recorded questions (handleAnswer questions answers currentIndex option).
Proof.
  intros Hopt [Hnd [Hids Hvals]]. unfold handleAnswer.
  destruct (nth_error questions currentIndex) as [q|] eqn:Hq; [|now repeat split].
  assert (Hin : In (q_id q) (map q_id questions))
    by (apply in_map; now apply nth_error_In with currentIndex).
  repeat split.
  - rewrite setAnswer_keys.
    destruct (existsb (String.eqb (q_id q)) (map fst answers)) eqn:He; [exact Hnd|].
    apply NoDup_app; [exact Hnd | repeat constructor; intros [] |].
    intros x Hx [Heq | []]. subst x.
    assert (existsb (String.eqb (q_id q)) (map fst answers) = true); [|congruence].
    apply existsb_exists. exists (q_id q).
    split; [assumption | apply String.eqb_refl].
  - intros id. rewrite setAnswer_keys.
    destruct (existsb (String.eqb (q_id q)) (map fst answers)); [apply Hids|].
    intros H. apply in_app_or in H. destruct H as [H | [<- | []]]; auto.
  - intros v H. apply setAnswer_values in H. destruct H as [-> | H]; auto.
Qed.

Lemma answersAfter_recorded (questions : list Question)
      (selections : list (nat * string)) :
  Forall (fun sel => truthy (snd sel) = true) selections ->
  recorded questions (answersAfter questions selections).
Proof.
  unfold answersAfter. intros Hall.
  assert (H0 : recorded questions []).
  { repeat split; [constructor | intros id [] | intros v []]. }
  revert H0. generalize (@nil (string * string)) as answers.
  induction Hall as [|sel t Hsel _ IH]; intros answers Hrec; [exact Hrec|].
  cbn [fold_left]. apply IH. now apply handleAnswer_recorded.
Qed.

(** With distinct identifiers, none of them an inherited name, the
    questions that have an answer are as many as the answers recorded. *)
Lemma answered_questions_count (questions : list Question) (answers : Answers) :
  NoDup (map q_id questions) -> plainIds questions -> recorded questions answers ->
  length (filter (isAnswered answers) questions) = length answers.
Proof.
  intros Hq Hplain [Hnd [Hids Hvals]].
  rewrite <- (length_map q_id), <- (length_map fst answers).
  assert (Hfnd : NoDup (map q_id (filter (isAnswered answers) questions))).
  { clear - Hq. induction questions as [|q t IH]; cbn [filter map]; [constructor|].
    cbn [map] in Hq. inversion Hq as [|? ? Hn Hq']; subst.
    destruct (isAnswered answers q); cbn [map]; [|now apply IH].
    constructor; [|now apply IH].
    intros H. apply Hn. apply in_map_iff in H. destruct H as [x [Hx Hin]].
    apply filter_In in Hin. rewrite <- Hx. apply in_map. tauto. }
  assert (Hplain' : forall q, In q questions ->
                              existsb (String.eqb (q_id q)) inheritedNames = false).
  { now apply Forall_forall. }
  apply Nat.le_antisymm; apply NoDup_incl_length; try assumption.
  - intros id H. apply in_map_iff in H. destruct H as [q [<- Hin]].
    apply filter_In in Hin. destruct Hin as [Hin Ha].
    rewrite (isAnswered_plain _ _ (Hplain' q Hin)) in Ha.
    apply ownAnswer_In. destruct (ownAnswer answers (q_id q)) as [v|]; [|discriminate].
    now exists v.
  - intros id H. pose proof (Hids id H) as Hin.
    apply in_map_iff in Hin. destruct Hin as [q [<- Hin]].
    apply in_map, filter_In. split; [assumption|].
    rewrite (isAnswered_plain _ _ (Hplain' q Hin)).
    apply ownAnswer_In in H. destruct H as [v Hv].
    rewrite Hv. cbn [truthyOpt]. apply Hvals. now apply ownAnswer_value with (q_id q).
Qed.

End Statistics.

(** X3. When the questions have distinct identifiers, none of them a name
    that every object inherits, and the answers were recorded by selecting
    non-empty options, the loop of the statistics ends without throwing; it
    counts every question with a recorded answer once, as correct or as
    incorrect, and no other; and the three figures shown add up: correct,
    incorrect and left make the total, and none is negative. *)
Theorem statistics_add_up :
  forall (questions : list Question) (selections : list (nat * string)),
    NoDup (map q_id questions) ->
    Practice.plainIds questions ->
    Forall (fun sel => truthy (snd sel) = true) selections ->
    let answers := Practice.answersAfter questions selections in
    exists st,
      Practice.stats questions answers = Some st
      /\ Practice.correct st + Practice.incorrect st
         = length (filter (Practice.isAnswered answers) questions)
      /\ Practice.correct st + Practice.incorrect st = Practice.answered st
      /\ (Z.of_nat (Practice.correct st) + Z.of_nat (Practice.incorrect st)
          + Practice.unanswered st = Z.of_nat (Practice.total st))%Z
      /\ (0 <= Practice.unanswered st)%Z.
Proof.
  intros questions selections Hq Hplain Hsel answers.
  destruct (stats_fold_counts answers questions (0, 0) Hplain) as [counted [Hf Hc]].
  cbn [fst snd Nat.add] in Hc.
  pose proof (answered_questions_count questions answers Hq Hplain
                (answersAfter_recorded questions selections Hsel)) as Hn.
  assert (Hle : length (filter (Practice.isAnswered answers) questions)
                <= length questions) by apply filter_length_le.
  unfold Practice.stats. rewrite Hf. eexists. split; [reflexivity|].
  cbn [Practice.correct Practice.incorrect Practice.answered Practice.unanswered
       Practice.total].
  repeat split; lia.
Qed.

Lemma statistics_add_up_witness :
  exists st,
    Practice.stats [pageQuestion]
      (Practice.answersAfter [pageQuestion] [(0, "a"); (0, "b")]) = Some st
    /\ Practice.correct st + Practice.incorrect st = Practice.answered st.
Proof.
  assert (Hq : NoDup (map q_id [pageQuestion])) by (repeat constructor; intros []).
  assert (Hp : Practice.plainIds [pageQuestion]) by (repeat constructor).
  assert (Hs : Forall (fun sel : nat * string => truthy (snd sel) = true)
                      [(0, "a"); (0, "b")]) by (repeat constructor).
  destruct (statistics_add_up [pageQuestion] [(0, "a"); (0, "b")] Hq Hp Hs)
    as [st [Hst [_ [Hsum _]]]].
  exists st. split; [exact Hst | exact Hsum].
Defined.

(** Without the condition on the identifiers the figures need not add up:
    a question with the identifier [constructor] and a letter for its
    answer is counted incorrect before any answer is recorded, and with a
    literal answer the loop throws. *)
Example inherited_identifier_counts_as_answered :
  Practice.stats [inheritedQuestion "B"] []
  = Some (Practice.mkStats 1 0 0 1 1)
  /\ Practice.stats [inheritedQuestion "1-ii"] [] = None.
Proof. split; reflexivity. Qed.

Lemma badge_forms (idx : nat) :
  idx < 4 ->
  labeledForm (trim (Practice.badge idx)) = None
  /\ bareForm (trim (Practice.badge idx)) = Some (Z.of_nat idx)
  /\ labeledForm (trim ("Option " ++ Practice.badge idx)%string) = Some (Z.of_nat idx).
Proof.
  intros H. destruct idx as [|[|[|[|idx]]]]; [| | | |lia];
    repeat split; reflexivity.
Qed.

(** X4. The letter on the badge of one of the first four options, given as
    the correct answer, alone or after [Option ], marks the text of that
    option as correct and every other text as incorrect in the statistics;
    the question card marks a text as correct exactly when that position is
    the first one holding it. *)
Theorem badge_letter_names_its_option :
  forall (options : list string) (idx : nat) (o : string),
    idx < 4 ->
    nth_error options idx = Some o ->
    statsIsCorrect (Practice.badge idx) options o = true
    /\ statsIsCorrect ("Option " ++ Practice.badge idx)%string options o = true
    /\ (forall selected, selected <> o ->
          statsIsCorrect (Practice.badge idx) options selected = false
          /\ statsIsCorrect ("Option " ++ Practice.badge idx)%string options selected
             = false)
    /\ (forall selected,
          cardIsCorrect (Practice.badge idx) options selected
          = (indexOf options selected =? Z.of_nat idx)%Z).
Proof.
  intros options idx o Hidx Hnth.
  destruct (badge_forms idx Hidx) as [Hl [Hb Ho]].
  assert (Hat : forall selected,
             optionIs options (Z.of_nat idx) selected = String.eqb o selected).
  { intros selected. unfold optionIs, at_.
    replace (Z.of_nat idx <? 0)%Z with false by (symmetry; apply Z.ltb_ge; lia).
    now rewrite Nat2Z.id, Hnth. }
  assert (Hstats : forall selected,
             statsIsCorrect (Practice.badge idx) options selected = String.eqb o selected
             /\ statsIsCorrect ("Option " ++ Practice.badge idx)%string options selected
                = String.eqb o selected).
  { intros selected. rewrite !statsIsCorrect_resolve, !resolve_unfold.
    rewrite Hl, Hb, Ho. split; apply Hat. }
  split; [rewrite (proj1 (Hstats o)); apply String.eqb_refl|].
  split; [rewrite (proj2 (Hstats o)); apply String.eqb_refl|].
  split.
  - intros selected Hne. destruct (Hstats selected) as [-> ->].
    split; apply String.eqb_neq; congruence.
  - intros selected.
    rewrite cardIsCorrect_resolveByPosition, resolveByPosition_unfold.
    now rewrite Hl, Hb.
Qed.

Lemma badge_letter_names_its_option_witness :
  statsIsCorrect (Practice.badge 2) planets "Mars" = true.
Proof.
  exact (proj1 (badge_letter_names_its_option planets 2 "Mars"
                  ltac:(lia) eq_refl)).
Defined.

(** ** Trimming *)

Section Trimming.

Variable p : ascii -> bool.

(** A list that does not begin with a character of the class. *)
Let clean (l : list ascii) : Prop :=
  match l with [] => True | c :: _ => p c = false end.

Lemma dropWhile_clean (l : list ascii) : clean (dropWhile p l).
Proof.
  induction l as [|c t IH]; cbn [dropWhile]; [exact I|].
  destruct (p c) eqn:Hc; [exact IH | exact Hc].
Qed.

Lemma dropWhile_of_clean (l : list ascii) : clean l -> dropWhile p l = l.
Proof.
  destruct l as [|c t]; intros H; [reflexivity|].
  cbn [dropWhile]. unfold clean in H. now rewrite H.
Qed.

Lemma take_drop (l : list ascii) : l = takeWhile p l ++ dropWhile p l.
Proof.
  induction l as [|c t IH]; cbn [takeWhile dropWhile]; [reflexivity|].
  destruct (p c); [cbn [app]; now f_equal | reflexivity].
Qed.

Lemma clean_prefix (a b : list ascii) : clean (a ++ b) -> a <> [] -> clean a.
Proof. destruct a; [congruence | intros H _; exact H]. Qed.

End Trimming.

(** The text is white space, the trimmed text, and white space. *)
Lemma trimList_inside (l : list ascii) :
  exists before after, l = before ++ trimList l ++ after.
Proof.
  unfold trimList.
  exists (takeWhile isWhiteSpace l),
         (rev (takeWhile isWhiteSpace (rev (dropWhile isWhiteSpace l)))).
  rewrite <- rev_app_distr, <- take_drop, rev_involutive.
  apply take_drop.
Qed.

Lemma trimList_idempotent (l : list ascii) : trimList (trimList l) = trimList l.
Proof.
  unfold trimList at 2 3.
  set (a := dropWhile isWhiteSpace l).
  set (b := dropWhile isWhiteSpace (rev a)).
  assert (Hb : dropWhile isWhiteSpace b = b)
    by (apply dropWhile_of_clean, dropWhile_clean).
  assert (Hrb : dropWhile isWhiteSpace (rev b) = rev b).
  { apply dropWhile_of_clean.
    destruct (rev b) as [|c t] eqn:Hr; [exact I|].
    apply (clean_prefix isWhiteSpace (c :: t)
             (rev (takeWhile isWhiteSpace (rev a)))); [|discriminate].
    rewrite <- Hr, <- rev_app_distr. unfold b.
    rewrite <- take_drop, rev_involutive. apply dropWhile_clean. }
  unfold trimList. now rewrite Hrb, rev_involutive, Hb.
Qed.

Lemma trim_idempotent (s : string) : trim (trim s) = trim s.
Proof.
  unfold trim. rewrite list_ascii_of_string_of_list_ascii.
  now rewrite trimList_idempotent.
Qed.

(** ** The cleaned questions of a page *)

Lemma firstn_subset {A} (n : nat) (l : list A) (x : A) :
  In x (firstn n l) -> In x l.
Proof.
  intros H. rewrite <- (firstn_skipn n l). apply in_or_app. now left.
Qed.

Lemma cleanOptions_nth (options : option (list string)) (i : nat) (a : string) :
  nth_error (cleanOptions options) i = Some a ->
  a <> EmptyString ->
  nth_error (cleanDedup (match options with Some o => o | None => [] end)) i = Some a.
Proof.
  unfold cleanOptions, padTo4. intros H Ha.
  set (d := cleanDedup (match options with Some o => o | None => [] end)) in *.
  destruct (Nat.lt_ge_cases i 4) as [Hi | Hi].
  - rewrite nth_error_firstn in H.
    replace (i <? 4)%nat with true in H by (symmetry; now apply Nat.ltb_lt).
    destruct (Nat.lt_ge_cases i (length d)) as [Hd | Hd].
    + now rewrite nth_error_app1 in H.
    + rewrite nth_error_app2 in H by assumption.
      apply nth_error_In, repeat_spec in H. congruence.
  - assert (Hnone : nth_error (firstn 4 (d ++ repeat EmptyString (4 - length d))) i = None).
    { apply nth_error_None. rewrite length_firstn. lia. }
    congruence.
Qed.

(** X5. Every question the server's clean-up returns has exactly four
    options, each without surrounding white space; those that are not empty
    are pairwise different without case (only the empty padding can
    repeat), the page number is the one of the batch, and the label, text
    and explanation are trimmed. *)
Theorem cleaned_questions_have_four_options :
  forall (toUpperCase : string -> string) (items : list RawItem) (pageNo : string)
         (q : Question),
    In q (validateAndCleanQuestions toUpperCase items pageNo) ->
    length (q_options q) = 4
    /\ (forall o, In o (q_options q) -> trim o = o)
    /\ (forall i j a b, i < j ->
          nth_error (q_options q) i = Some a -> nth_error (q_options q) j = Some b ->
          a <> EmptyString -> b <> EmptyString -> ~ ciEqual a b)
    /\ q_pageNo q = Some pageNo
    /\ trim (q_question q) = q_question q
    /\ (exists no explanation,
          q_no q = Some no /\ trim no = no
          /\ q_explanation q = Some explanation /\ trim explanation = explanation).
Proof.
  intros toUpperCase items pageNo q Hin.
  unfold validateAndCleanQuestions in Hin. apply in_map_iff in Hin.
  destruct Hin as [r [<- _]]. cbn [cleanQuestion q_options q_pageNo q_question
                                    q_no q_explanation].
  split; [|split; [|split; [|split; [|split]]]].
  - unfold cleanOptions, padTo4.
    rewrite length_firstn, length_app, repeat_length. lia.
  - intros o Ho. unfold cleanOptions, padTo4 in Ho.
    apply firstn_subset, in_app_or in Ho. destruct Ho as [Ho | Ho].
    + unfold cleanDedup in Ho. apply filterSeen_In in Ho. destruct Ho as [Ho _].
      apply in_map_iff in Ho. destruct Ho as [x [<- _]]. apply trim_idempotent.
    + apply repeat_spec in Ho. now subst o.
  - intros i j a b Hij Ha Hb Hna Hnb Hci.
    apply cleanOptions_nth in Ha; [|assumption].
    apply cleanOptions_nth in Hb; [|assumption].
    unfold cleanDedup in Ha, Hb.
    exact (NoDup_keys_positions cleanKey _ i j a b
             (filterSeen_NoDup_keys cleanKey _ []) Hij Ha Hb Hci).
  - reflexivity.
  - apply trim_idempotent.
  - eexists _, _. repeat split; apply trim_idempotent.
Qed.

Lemma cleaned_questions_have_four_options_witness :
  length (q_options (cleanQuestion upperAscii "22"
                       (mkRaw None None (Some "Q?")
                              (Some [" a"; "A "; "b"]) None None None None)))
  = 4.
Proof.
  refine (proj1 (cleaned_questions_have_four_options upperAscii
                   [mkRaw None None (Some "Q?") (Some [" a"; "A "; "b"])
                          None None None None] "22" _ _)).
  left. reflexivity.
Defined.

(** ** More on the row normalizer *)

Lemma rowLabel_truthy (index : nat) : truthy (rowLabel index) = true.
Proof.
  unfold rowLabel.
  assert (H : Nat.to_uint (index + 1) <> Decimal.Nil).
  { intros Hnil. pose proof (DecimalNat.Unsigned.of_to (index + 1)) as Hof.
    rewrite Hnil in Hof. cbn in Hof. lia. }
  destruct (Nat.to_uint (index + 1)); try reflexivity. congruence.
Qed.

Lemma orElse_falsy (a b : option string) :
  truthyOpt (orElse a b) = false <-> truthyOpt a = false /\ truthyOpt b = false.
Proof.
  unfold orElse. destruct (truthyOpt a) eqn:Ha; [rewrite Ha|]; intuition congruence.
Qed.

Lemma orElse_truthy_right (a : option string) (b : string) :
  truthy b = true -> truthyOpt (orElse a (Some b)) = true.
Proof.
  intros Hb. unfold orElse. destruct (truthyOpt a) eqn:Ha; [exact Ha | exact Hb].
Qed.

(** X6. Every question the importer keeps is complete: it carries the
    identifier drawn for it, a non-empty question text, a non-empty label
    (the cell [Question No.] or the number of the row), at least two
    options, none of them blank, and a non-empty correct answer, which is
    the first option when the row has no answer under [Correct Answer],
    [Correct] or [Answer]; it carries no page number. *)
Theorem kept_question_is_complete :
  forall (id sourceName : string) (index : nat) (row : Row) (q : Question),
    normalize id sourceName index row = Keep q ->
    q_id q = id
    /\ truthy (q_question q) = true
    /\ (exists no, q_no q = Some no /\ truthy no = true)
    /\ 2 <= length (q_options q)
    /\ (forall o, In o (q_options q) -> notBlank o = true)
    /\ truthy (q_correctAnswer q) = true
    /\ (truthyOpt (get row "Correct Answer") = false ->
        truthyOpt (getVal row "Correct Answer") = false ->
        truthyOpt (getVal row "Correct") = false ->
        truthyOpt (getVal row "Answer") = false ->
        nth_error (q_options q) 0 = Some (q_correctAnswer q))
    /\ q_pageNo q = None.
Proof.
  intros id sourceName index row q H.
  destruct (normalize_Keep _ _ _ _ _ H) as [Hopts [Hlen [_ [Hq [Hid Hpage]]]]].
  unfold normalize in H.
  destruct (getVal row "Question") as [questionText|]; [|discriminate].
  destruct (truthy questionText); cbn [negb] in H; [|discriminate].
  destruct (length (rowOptions row) <? 2)%nat; [discriminate|].
  injection H as <-. cbn [q_options q_no q_correctAnswer] in *.
  set (correctVal := orElse (orElse (orElse (get row "Correct Answer")
                                            (getVal row "Correct Answer"))
                                    (getVal row "Correct"))
                            (getVal row "Answer")).
  destruct (rowOptions row) as [|first rest] eqn:Hrow; [simpl in Hlen; lia|].
  assert (Hfirst : notBlank first = true).
  { apply (rowOptions_In row first). rewrite Hrow. now left. }
  assert (Hft : truthy first = true) by (now apply andb_true_iff in Hfirst).
  repeat split; try assumption.
  - unfold orElse.
    destruct (get row "Question No.") as [v|]; cbn [truthyOpt].
    + destruct (truthy v) eqn:Hv; [now exists v|].
      exists (rowLabel index). split; [reflexivity | apply rowLabel_truthy].
    + exists (rowLabel index). split; [reflexivity | apply rowLabel_truthy].
  - intros o Ho. apply (rowOptions_In row o). now rewrite Hrow.
  - cbn [nth_error].
    pose proof (orElse_truthy_right correctVal first Hft) as Ht.
    destruct (orElse correctVal (Some first)); [exact Ht | discriminate Ht].
  - intros H1 H2 H3 H4. cbn [nth_error]. f_equal.
    assert (Hc : truthyOpt correctVal = false).
    { unfold correctVal. rewrite !orElse_falsy. tauto. }
    unfold orElse at 1. now rewrite Hc.
Qed.

Lemma kept_question_is_complete_witness :
  truthy (q_correctAnswer
            {| q_id := "0"; q_no := Some "1"; q_question := "Q?";
               q_options := ["x"; "y"]; q_correctAnswer := "x";
               q_explanation := None; q_topic := Some "quiz";
               q_pageNo := None |}) = true.
Proof.
  assert (H : normalize "0" "quiz.csv" 0 goodRow
              = Keep {| q_id := "0"; q_no := Some "1"; q_question := "Q?";
                        q_options := ["x"; "y"]; q_correctAnswer := "x";
                        q_explanation := None; q_topic := Some "quiz";
                        q_pageNo := None |}) by reflexivity.
  destruct (kept_question_is_complete "0" "quiz.csv" 0 goodRow _ H)
    as [_ [_ [_ [_ [_ [Hc _]]]]]].
  exact Hc.
Defined.

(** ** The header check *)

Lemma prefixb_app (p rest : list ascii) : prefixb p (p ++ rest) = true.
Proof.
  induction p as [|c t IH]; [reflexivity|].
  cbn [app prefixb]. now rewrite Ascii.eqb_refl.
Qed.

Lemma includesList_inside (before p after : list ascii) :
  includesList (before ++ p ++ after) p = true.
Proof.
  induction before as [|c t IH].
  - cbn [app]. destruct (p ++ after) eqn:Hpa.
    + destruct p; [reflexivity | discriminate].
    + cbn [includesList]. rewrite <- Hpa, prefixb_app. reflexivity.
  - cbn [app includesList]. rewrite IH. apply orb_true_r.
Qed.

(** A header that is the target once trimmed and lower-cased contains the
    target once lower-cased. *)
Lemma exact_header_contains (k target : string) :
  toLowerCase (trim k) = target -> includes (toLowerCase k) target = true.
Proof.
  intros H. rewrite toLowerCase_trim in H. unfold includes.
  destruct (trimList_inside (list_ascii_of_string (toLowerCase k)))
    as [before [after Hl]].
  rewrite Hl. replace (list_ascii_of_string target)
    with (trimList (list_ascii_of_string (toLowerCase k))).
  - apply includesList_inside.
  - rewrite <- H. unfold trim. now rewrite list_ascii_of_string_of_list_ascii.
Qed.

(** X7. The header check rejects nothing the normalizer could keep: when no
    header contains [question], every row whose cells stand under those
    headers has no question text, so the normalizer would skip it. *)
Theorem invalid_format_rejects_only_unusable_rows :
  forall (headers : list string) (row : Row),
    hasQuestion headers = false ->
    (forall k, In k (keys row) -> In k headers) ->
    getVal row "Question" = None
    /\ skippable row
    /\ (forall id sourceName index, normalize id sourceName index row = Skip).
Proof.
  intros headers row Hgate Hkeys.
  assert (Hnone : forall k, In k (keys row) ->
                            includes (toLowerCase k) "question" = false).
  { intros k Hk. unfold hasQuestion in Hgate.
    destruct (includes (toLowerCase k) "question") eqn:Hi; [|reflexivity].
    assert (existsb (fun h => includes (toLowerCase h) "question") headers = true);
      [|congruence].
    apply existsb_exists. exists k. split; [now apply Hkeys | exact Hi]. }
  assert (Hval : getVal row "Question" = None).
  { unfold getVal, fuzzyVal.
    destruct (find (fun k => String.eqb (toLowerCase (trim k)) (toLowerCase "Question"))
                   (keys row)) as [k|] eqn:Hexact.
    - apply find_some in Hexact. destruct Hexact as [Hk He].
      apply String.eqb_eq in He. apply exact_header_contains in He.
      change (toLowerCase "Question") with "question" in He.
      rewrite (Hnone k Hk) in He. discriminate.
    - destruct (find (fuzzyMatches "Question") (keys row)) as [k|] eqn:Hfuzzy;
        [|reflexivity].
      apply find_some in Hfuzzy. destruct Hfuzzy as [Hk Hf].
      unfold fuzzyMatches in Hf.
      change (toLowerCase "Question") with "question" in Hf.
      rewrite (Hnone k Hk) in Hf.
      destruct (String.eqb "question" "question" && _); discriminate. }
  assert (Hs : skippable row) by (left; now rewrite Hval).
  split; [exact Hval|]. split; [exact Hs|].
  intros id sourceName index. now apply normalize_Skip_iff.
Qed.

Lemma invalid_format_rejects_only_unusable_rows_witness :
  getVal [("Q", "What?"); ("A", "x"); ("B", "y")] "Question" = None.
Proof.
  refine (proj1 (invalid_format_rejects_only_unusable_rows ["Q"; "A"; "B"]
                   [("Q", "What?"); ("A", "x"); ("B", "y")] eq_refl _)).
  intros k Hk. exact Hk.
Defined.

Import Invariants.

(** X8. An import that succeeds loses and invents nothing: the questions of
    the topics it hands over are the collected questions, each once; the
    count it reports is their number, and with the skipped rows makes the
    number of rows; the topics have distinct, non-empty names, and every
    question stands in the topic its own [topic] field names ([General] for
    an empty one). *)
Theorem import_groups_every_kept_question :
  forall (uuid : nat -> string) (sourceName : string) (rows : list Row)
         (topics : list Topic) (imported skipped : nat),
    importSource uuid sourceName rows = Imported topics imported skipped ->
    Permutation (concat (map t_questions topics))
                (processedQuestions (processRows uuid sourceName rows))
    /\ imported = length (concat (map t_questions topics))
    /\ imported + skipped = length rows
    /\ NoDup (map t_name topics)
    /\ (forall t, In t topics -> truthy (t_name t) = true /\ t_questions t <> [])
    /\ (forall t q, In t topics -> In q (t_questions t) -> finalTopic q = t_name t).
Proof.
  intros uuid sourceName rows topics imported skipped H.
  assert (Hem : forall t, In t topics ->
                          In t (emitted (importSource uuid sourceName rows)))
    by (intros t Ht; now rewrite H).
  unfold importSource in H.
  set (st := processRows uuid sourceName rows) in *.
  destruct (length (processedQuestions st) =? 0)%nat; [discriminate|].
  destruct (questionsByTopic (processedQuestions st)) as [g|] eqn:Hg; [|discriminate].
  injection H as <- <- <-.
  destruct (questionsByTopic_keeps (processedQuestions st) [] g Hg) as [[Hnd Hnamed] Hp].
  { split; [constructor | intros n group x []]. }
  destruct (topicsFrom_fields uuid (entries g) (drawn st)) as [Hq [Hn _]].
  assert (Hperm : Permutation (concat (map t_questions
                                         (topicsFrom uuid (drawn st) (entries g))))
                              (processedQuestions st)).
  { rewrite Hq. apply perm_trans with (allQuestions g); [|exact Hp].
    apply Permutation_concat_lists, Permutation_map, entries_Permutation. }
  split; [exact Hperm|].
  split; [symmetry; now apply Permutation_length|].
  split.
  { pose proof (processFrom_accounts uuid sourceName rows loopStart 0) as Ha.
    cbn [skippedCount processedQuestions loopStart length] in Ha.
    fold (processRows uuid sourceName rows) in Ha. fold st in Ha. lia. }
  split.
  { rewrite Hn. apply (Permutation_NoDup (l := map fst g)); [|exact Hnd].
    apply Permutation_map, Permutation_sym, entries_Permutation. }
  assert (Hall : forall t q, In t (topicsFrom uuid (drawn st) (entries g)) ->
                             In q (t_questions t) -> finalTopic q = t_name t).
  { intros t q Ht Hq'. apply topicsFrom_In, entries_In in Ht.
    now apply (Hnamed (t_name t) (t_questions t)). }
  split; [|exact Hall].
  intros t Ht. pose proof (importSource_emitted uuid sourceName rows t (Hem t Ht))
    as [Hne _].
  split; [|exact Hne].
  destruct (t_questions t) as [|q qs] eqn:Hqs; [congruence|].
  rewrite <- (Hall t q Ht) by (rewrite Hqs; now left).
  unfold finalTopic, orElse. destruct (q_topic q) as [n|]; cbn [truthyOpt].
  - now destruct (truthy n) eqn:Hn'.
  - reflexivity.
Qed.

Lemma import_groups_every_kept_question_witness :
  Permutation
    (concat (map t_questions (emitted (importSource decimal "quiz.csv" [goodRow; sumRow]))))
    (processedQuestions (processRows decimal "quiz.csv" [goodRow; sumRow])).
Proof.
  exact (proj1 (import_groups_every_kept_question decimal "quiz.csv"
                  [goodRow; sumRow] _ _ _ eq_refl)).
Defined.

(** ** More on the extraction *)

Lemma slice_ends {A} (s : list A) (a b : nat) (x y : A) :
  a < b -> nth_error s a = Some x -> nth_error s b = Some y ->
  exists mid, firstn (b + 1 - a) (skipn a s) = x :: mid ++ [y].
Proof.
  intros Hab Ha Hb.
  destruct (nth_error_split s a Ha) as [l1 [l2 [Hs Hl1]]].
  assert (Hskip : skipn a s = x :: l2).
  { rewrite Hs, <- Hl1. rewrite skipn_app, skipn_all, Nat.sub_diag. reflexivity. }
  assert (Hb2 : nth_error l2 (b - a - 1) = Some y).
  { rewrite Hs in Hb. rewrite nth_error_app2 in Hb by lia.
    rewrite Hl1 in Hb. replace (b - a) with (S (b - a - 1)) in Hb by lia.
    exact Hb. }
  destruct (nth_error_split l2 (b - a - 1) Hb2) as [m [l3 [Hl2 Hm]]].
  exists m. rewrite Hskip, Hl2.
  replace (b + 1 - a) with (S (length m + 1)) by lia.
  cbn [firstn]. f_equal.
  rewrite firstn_app. replace (length m + 1 - length m) with 1 by lia.
  rewrite firstn_all2 by lia. reflexivity.
Qed.

Lemma removeTrailingCommas_last (m : list ascii) (c : ascii) :
  Ascii.eqb c comma = false ->
  exists m', removeTrailingCommas (m ++ [c]) = m' ++ [c].
Proof.
  intros Hc. induction m as [|x t [m' IH]]; cbn [app removeTrailingCommas].
  - rewrite Hc. now exists [].
  - rewrite IH. destruct (Ascii.eqb x comma && closerFollows (t ++ [c])).
    + now exists m'.
    + now exists (x :: m').
Qed.

(** X9. Whatever text reaches the parser begins with an opening brace and
    ends with a closing brace. *)
Theorem payload_is_enclosed_in_braces :
  forall (responseText jsonStr2 : string),
    payload responseText = Some jsonStr2 ->
    exists inside,
      list_ascii_of_string jsonStr2 = lbrace :: inside ++ [rbrace].
Proof.
  intros responseText jsonStr2. unfold payload, payloadOf.
  set (jsonStr := unfenced responseText).
  destruct (indexOfChar_spec lbrace jsonStr 0) as [[Hf _] | [a [Hf [Ha _]]]];
    [rewrite Hf; cbn [Z.eqb orb]; discriminate|].
  destruct (lastIndexOfChar_spec rbrace jsonStr 0 (Z.le_refl 0))
    as [[Hl _] | [b [Hl [Hb _]]]].
  { rewrite Hl. cbn [Z.eqb]. rewrite orb_true_r. discriminate. }
  rewrite Hf, Hl, !Z.add_0_l.
  destruct ((Z.of_nat a =? -1)%Z || (Z.of_nat b =? -1)%Z
            || (Z.of_nat b <=? Z.of_nat a)%Z) eqn:Hbad; [discriminate|].
  apply orb_false_iff in Hbad. destruct Hbad as [_ Hlt]. apply Z.leb_gt in Hlt.
  intros H. injection H as <-. rewrite list_ascii_of_string_of_list_ascii.
  unfold substring.
  replace (Z.to_nat (Z.of_nat b + 1 - Z.of_nat a)) with (b + 1 - a) by lia.
  rewrite Nat2Z.id.
  destruct (slice_ends jsonStr a b lbrace rbrace ltac:(lia) Ha Hb) as [mid ->].
  cbn [removeTrailingCommas].
  replace (Ascii.eqb lbrace comma) with false by reflexivity. cbn [andb].
  destruct (removeTrailingCommas_last mid rbrace eq_refl) as [m' ->].
  now exists m'.
Qed.

Lemma payload_is_enclosed_in_braces_witness :
  exists inside, list_ascii_of_string emptyPayload = lbrace :: inside ++ [rbrace].
Proof.
  exact (payload_is_enclosed_in_braces emptyAnswer emptyPayload eq_refl).
Defined.

Lemma dropWhile_In {A} (p : A -> bool) (l : list A) (x : A) :
  In x (dropWhile p l) -> In x l.
Proof.
  induction l as [|c t IH]; cbn [dropWhile]; [intros []|].
  destruct (p c); [intros H; right; now apply IH | auto].
Qed.

Lemma skipn_In {A} (n : nat) (l : list A) (x : A) : In x (skipn n l) -> In x l.
Proof.
  intros H. rewrite <- (firstn_skipn n l). apply in_or_app. now right.
Qed.

Lemma trimList_In (l : list ascii) (x : ascii) : In x (trimList l) -> In x l.
Proof.
  unfold trimList. intros H. apply in_rev, dropWhile_In in H.
  apply in_rev in H. now apply dropWhile_In in H.
Qed.

Lemma stripOpenFrom_In (s : list ascii) (x : ascii) : forall lineStart,
  In x (stripOpenFrom lineStart s) -> In x s.
Proof.
  induction s as [|c t IH]; intros lineStart; cbn [stripOpenFrom]; [intros []|].
  destruct (lineStart && prefixb fence (c :: t)).
  - intros H. apply dropWhile_In in H. unfold skipJson in H.
    destruct (prefixb (list_ascii_of_string "json") (skipn 3 (c :: t)));
      [apply skipn_In in H|]; now apply skipn_In in H.
  - intros [<- | H]; [now left | right; now apply (IH (isLineTerminator c))].
Qed.

Lemma fromLastTerminator_In (run rest : list ascii) (x : ascii) :
  fromLastTerminator run = Some rest -> In x rest -> In x run.
Proof.
  revert rest. induction run as [|c t IH]; cbn [fromLastTerminator]; intros rest H Hx;
    [discriminate|].
  destruct (fromLastTerminator t) as [r|].
  - injection H as <-. right. now apply (IH r).
  - destruct (isLineTerminator c); [|discriminate]. injection H as <-. exact Hx.
Qed.

Lemma closeTail_In (r rest : list ascii) (x : ascii) :
  closeTail r = Some rest -> In x rest -> In x r.
Proof.
  unfold closeTail. intros H Hx.
  destruct (dropWhile isWhiteSpace r) as [|d after] eqn:Hd.
  - injection H as <-. contradiction.
  - destruct (fromLastTerminator (takeWhile isWhiteSpace r)) as [rest'|] eqn:Hl;
      [|discriminate].
    injection H as <-. rewrite (take_drop isWhiteSpace r).
    apply in_or_app. apply in_app_or in Hx. destruct Hx as [Hx | Hx].
    + left. now apply (fromLastTerminator_In _ rest').
    + right. now rewrite Hd.
Qed.

Lemma stripClose_In (s : list ascii) (x : ascii) :
  In x (stripClose s) -> In x s.
Proof.
  induction s as [|c t IH]; cbn [stripClose]; [intros []|].
  destruct (if Ascii.eqb c LF && prefixb fence t then closeTail (skipn 3 t) else None)
    as [r|] eqn:Hvia.
  - destruct (Ascii.eqb c LF && prefixb fence t); [|discriminate].
    intros Hx. right. eapply skipn_In, closeTail_In; eassumption.
  - destruct (if prefixb fence (c :: t) then closeTail (skipn 3 (c :: t)) else None)
      as [r|] eqn:Hdir.
    + destruct (prefixb fence (c :: t)); [|discriminate].
      intros Hx. eapply skipn_In, closeTail_In; eassumption.
    + intros [<- | H]; [now left | right; now apply IH].
Qed.

(** Trimming and the removal of fences only take characters away. *)
Lemma unfenced_In (responseText : string) (x : ascii) :
  In x (unfenced responseText) -> In x (list_ascii_of_string responseText).
Proof.
  unfold unfenced, stripOpen, trim. rewrite list_ascii_of_string_of_list_ascii.
  intros H. apply stripClose_In, stripOpenFrom_In, trimList_In in H. exact H.
Qed.

(** X10. An answer that holds no opening brace, or no closing brace, ends
    as [NoJson] with its first 200 characters, whatever fences it holds and
    whatever the parser would do: the parser is not called. *)
Theorem no_brace_no_json :
  forall (JSON_parse : string -> string + json) (responseText : string),
    ~ In lbrace (list_ascii_of_string responseText)
    \/ ~ In rbrace (list_ascii_of_string responseText) ->
    payload responseText = None
    /\ extract JSON_parse responseText = NoJson (excerpt 200 responseText).
Proof.
  intros JSON_parse responseText H.
  assert (Hp : payload responseText = None).
  { unfold payload, payloadOf.
    set (jsonStr := unfenced responseText).
    destruct H as [H | H].
    - destruct (indexOfChar_spec lbrace jsonStr 0) as [[-> _] | [a [_ [Ha _]]]];
        [reflexivity|].
      exfalso. apply H, unfenced_In. now apply nth_error_In with a.
    - destruct (lastIndexOfChar_spec rbrace jsonStr 0 (Z.le_refl 0))
        as [[-> _] | [b [_ [Hb _]]]].
      + cbn [Z.eqb]. now rewrite orb_true_r.
      + exfalso. apply H, unfenced_In. now apply nth_error_In with b. }
  split; [exact Hp|]. unfold extract. now rewrite Hp.
Qed.

Lemma no_brace_no_json_witness :
  extract sampleParse "Sorry, I cannot read this page."
  = NoJson "Sorry, I cannot read this page.".
Proof.
  refine (proj2 (no_brace_no_json sampleParse "Sorry, I cannot read this page." _)).
  left. cbn. intuition discriminate.
Defined.

(** ** The worker's API handler *)

(** X11. Through the worker, the API never answers with success: a request
    ends with one of the early error answers of the extraction block (400,
    or 500 for a missing key), and otherwise with [404 Not found], which
    also overwrites a successful extraction, the empty list of
    [/api/topics], the default keys of [/api/keys] and the answer 500 of a
    failed call of the model. *)
Theorem worker_api_never_answers_200 :
  forall (JSON_parse : string -> string + json) (method path : string)
         (imageBase64 envKey processKey : option string)
         (generated : Worker.Generated),
    let res := Worker.handleApiRoute JSON_parse method path imageBase64
                 envKey processKey generated Worker.initial in
    Worker.statusCode res <> 200
    /\ (Worker.statusCode res = 404
        /\ Worker.responseBody res = Worker.ErrorText "Not found"
        \/ Worker.statusCode res = 400
        \/ Worker.statusCode res = 500
           /\ Worker.responseBody res = Worker.ErrorText "Gemini API not configured")
    /\ (path <> "/api/extract-mcq" ->
        res = Worker.mkRes 404 (Worker.ErrorText "Not found"))
    /\ (forall responseText result questions,
          truthyOpt imageBase64 = true ->
          truthyOpt (orElse envKey processKey) = true ->
          (forall image, imageBase64 = Some image -> 1000 <= String.length image) ->
          generated = inr responseText ->
          extract JSON_parse responseText = Extracted result questions ->
          res = Worker.mkRes 404 (Worker.ErrorText "Not found")).
Proof.
  intros JSON_parse method path imageBase64 envKey processKey generated res.
  assert (Hcases :
            res = Worker.mkRes 404 (Worker.ErrorText "Not found")
            \/ (path = "/api/extract-mcq"
                /\ (Worker.statusCode res = 400
                    \/ (Worker.statusCode res = 500
                        /\ Worker.responseBody res
                           = Worker.ErrorText "Gemini API not configured")))).
  { subst res. unfold Worker.handleApiRoute.
    destruct (String.eqb path "/api/extract-mcq") eqn:Hpath; cbn [andb];
      [|now left].
    apply String.eqb_eq in Hpath.
    destruct (String.eqb method "POST"); [|now left].
    unfold Worker.extractMcq.
    destruct (negb (truthyOpt imageBase64)); [right; split; [exact Hpath | now left]|].
    destruct (_ <? 1000)%nat; [right; split; [exact Hpath | now left]|].
    destruct (negb (truthyOpt (orElse envKey processKey)));
      [right; split; [exact Hpath | right; now split]|].
    destruct generated as [message | responseText]; [now left|].
    destruct (extract JSON_parse responseText);
      try (right; split; [exact Hpath | now left]).
    now left. }
  split; [|split; [|split]].
  - destruct Hcases as [-> | [_ [H | [H _]]]]; [cbn | rewrite H | rewrite H];
      discriminate.
  - destruct Hcases as [-> | [_ [H | H]]]; [left; now split | right; now left
                                            | right; now right].
  - intros Hpath. destruct Hcases as [H | [H _]]; [exact H | contradiction].
  - intros responseText result questions Himg Hkey Hsize -> Hext.
    subst res. unfold Worker.handleApiRoute.
    destruct (String.eqb path "/api/extract-mcq" && String.eqb method "POST");
      [|reflexivity].
    unfold Worker.extractMcq. rewrite Himg, Hkey, Hext. cbn [negb].
    destruct imageBase64 as [image|]; [|discriminate].
    replace (String.length image <? 1000)%nat with false; [reflexivity|].
    symmetry. apply Nat.ltb_ge. now apply Hsize.
Qed.

(** ** Deleting and saving topics *)

Lemma deleteTopic_absent (prev : list Topic) (topicId : string) :
  (forall t, In t prev -> t_id t <> topicId) ->
  Files.deleteTopic prev topicId = prev.
Proof.
  unfold Files.deleteTopic. induction prev as [|h t IH]; intros H; [reflexivity|].
  cbn [filter].
  replace (String.eqb (t_id h) topicId) with false
    by (symmetry; apply String.eqb_neq, H; now left).
  cbn [negb]. f_equal. apply IH. intros x Hx. apply H. now right.
Qed.

Lemma find_none_ids (prev : list Topic) (id : string) :
  find (fun t => String.eqb (t_id t) id) prev = None ->
  forall t, In t prev -> t_id t <> id.
Proof.
  intros Hf t Ht. pose proof (find_none _ _ Hf t Ht) as H.
  now apply String.eqb_neq.
Qed.

(** X12. Deleting a topic removes every topic with that identifier and
    leaves the others as they are, in their order; deleting a topic that was
    just added as new (to a list that did not hold its identifier, the
    server out of reach) gives the list back. *)
Theorem delete_removes_exactly_that_topic :
  forall (prev : list Topic) (topicId : string),
    (forall t, In t (Files.deleteTopic prev topicId) <->
               In t prev /\ t_id t <> topicId)
    /\ Subseq (Files.deleteTopic prev topicId) prev
    /\ Files.deleteTopic (Files.deleteTopic prev topicId) topicId
       = Files.deleteTopic prev topicId
    /\ (forall topic,
          t_id topic = topicId ->
          find (fun t => String.eqb (t_id t) topicId) prev = None ->
          Files.deleteTopic (addTopic prev topic None) topicId = prev).
Proof.
  intros prev topicId. split; [|split; [|split]].
  - intros t. unfold Files.deleteTopic. rewrite filter_In.
    rewrite negb_true_iff, String.eqb_neq. reflexivity.
  - unfold Files.deleteTopic. induction prev as [|h t IH]; cbn [filter];
      [constructor|].
    destruct (negb (String.eqb (t_id h) topicId)); now constructor.
  - apply deleteTopic_absent. intros t Ht.
    unfold Files.deleteTopic in Ht. apply filter_In in Ht.
    destruct Ht as [_ Ht]. now apply negb_true_iff, String.eqb_neq in Ht.
  - intros topic Hid Hfind. unfold addTopic, mergeInto, withQuestions.
    cbn [t_id]. subst topicId. rewrite Hfind.
    unfold Files.deleteTopic. rewrite filter_app. cbn [filter t_id].
    rewrite String.eqb_refl. cbn [negb]. rewrite app_nil_r.
    apply deleteTopic_absent. now apply find_none_ids.
Qed.

Lemma preserveFields_idempotent (q : Question) :
  preserveFields (preserveFields q) = preserveFields q.
Proof.
  unfold preserveFields. cbn [q_id q_no q_question q_options q_correctAnswer
                              q_explanation q_topic q_pageNo].
  now rewrite !orDefault_Some.
Qed.

Lemma preserveQuestionFields_idempotent (qs : list Question) :
  preserveQuestionFields (preserveQuestionFields qs) = preserveQuestionFields qs.
Proof.
  unfold preserveQuestionFields. rewrite map_map. apply map_ext.
  apply preserveFields_idempotent.
Qed.

(** X13. Saving keeps the client's list and the server's table alike: when
    they hold the same topics and the topic has a name and an identifier,
    they hold the same topics after the save, be it a merge into a stored
    topic or a new one; the questions added are the preserved ones, which
    preserving again does not change, and with distinct identifiers before
    and a fresh one for a new topic the identifiers stay distinct. *)
Theorem save_keeps_client_and_server_alike :
  forall (db : list Topic) (newId : string) (topic : Topic),
    truthy (t_name topic) = true ->
    truthy (t_id topic) = true ->
    fst (saveTopic db db newId topic) = snd (saveTopic db db newId topic)
    /\ (forall qs, preserveQuestionFields (preserveQuestionFields qs)
                   = preserveQuestionFields qs)
    /\ match find (fun t => String.eqb (t_id t) (t_id topic)) db with
       | Some e =>
           snd (saveTopic db db newId topic)
           = map (fun t => if String.eqb (t_id t) (t_id topic)
                           then withQuestions t (t_questions e
                                                 ++ preserveQuestionFields (t_questions topic))
                           else t) db
       | None =>
           snd (saveTopic db db newId topic)
           = db ++ [mkTopic newId (t_name topic)
                            (preserveQuestionFields (t_questions topic))]
       end
    /\ (NoDup (map t_id db) -> ~ In newId (map t_id db) ->
        NoDup (map t_id (snd (saveTopic db db newId topic)))).
Proof.
  intros db newId topic Hname Hid.
  assert (Hshape :
            saveTopic db db newId topic
            = match find (fun t => String.eqb (t_id t) (t_id topic)) db with
              | Some e =>
                  let updated :=
                    map (fun t => if String.eqb (t_id t) (t_id topic)
                                  then withQuestions t
                                         (t_questions e
                                          ++ preserveQuestionFields (t_questions topic))
                                  else t) db in
                  (updated, updated)
              | None =>
                  let added := mkTopic newId (t_name topic)
                                 (preserveQuestionFields (t_questions topic)) in
                  (db ++ [added], db ++ [added])
              end).
  { unfold saveTopic, postTopic, addTopic, mergeInto, withQuestions.
    cbn [t_id t_questions t_name].
    rewrite Hname, Hid, !preserveQuestionFields_idempotent.
    cbn [negb].
    destruct (find (fun t => String.eqb (t_id t) (t_id topic)) db) as [e|]; reflexivity. }
  rewrite Hshape.
  split; [now destruct (find _ db)|].
  split; [exact preserveQuestionFields_idempotent|].
  split; [now destruct (find _ db)|].
  intros Hnd Hfresh.
  destruct (find (fun t => String.eqb (t_id t) (t_id topic)) db) as [e|]; cbn [snd].
  - rewrite map_map.
    replace (map (fun t => t_id (if String.eqb (t_id t) (t_id topic)
                                 then withQuestions t _ else t)) db)
      with (map t_id db); [exact Hnd|].
    apply map_ext. intros t. now destruct (String.eqb (t_id t) (t_id topic)).
  - rewrite map_app. cbn [map t_id].
    apply NoDup_app; [exact Hnd | repeat constructor; intros [] |].
    intros a Ha [<- | []]. contradiction.
Qed.

Lemma save_keeps_client_and_server_alike_witness :
  fst (saveTopic [] [] "t1" (mkTopic "t0" "Physics" [pageQuestion]))
  = snd (saveTopic [] [] "t1" (mkTopic "t0" "Physics" [pageQuestion])).
Proof.
  exact (proj1 (save_keeps_client_and_server_alike
                  [] "t1" (mkTopic "t0" "Physics" [pageQuestion]) eq_refl eq_refl)).
Defined.

(** ** The key of the AI explanation *)

(** X14. The client asks for an explanation exactly when one of the two
    keys is not blank; it then sends a key that is not blank, under the
    provider it belongs to, keeping the configured provider whenever that
    one has a key; and the server's check of the key accepts what the client
    sends. *)
Theorem explanation_request_carries_a_usable_key :
  forall (aiProvider : Explain.Provider) (openaiKey geminiKey : string),
    (Explain.chooseKey aiProvider openaiKey geminiKey = None
     <-> Explain.blank (Some openaiKey) = true /\ Explain.blank (Some geminiKey) = true)
    /\ (forall provider key,
          Explain.chooseKey aiProvider openaiKey geminiKey = Some (provider, key) ->
          Explain.blank (Some key) = false
          /\ key = match provider with
                   | Explain.openai => openaiKey
                   | Explain.gemini => geminiKey
                   end
          /\ (Explain.blank (Some match aiProvider with
                                   | Explain.openai => openaiKey
                                   | Explain.gemini => geminiKey
                                   end) = false -> provider = aiProvider)
          /\ Explain.serverKey (Explain.requestOf (provider, key)) = inr key).
Proof.
  intros aiProvider openaiKey geminiKey. unfold Explain.chooseKey.
  destruct aiProvider;
    destruct (Explain.blank (Some openaiKey)) eqn:Ho;
    destruct (Explain.blank (Some geminiKey)) eqn:Hg;
    cbn [negb]; rewrite ?Ho, ?Hg; cbn [negb];
    (split; [intuition congruence|]);
    intros provider key H;
    first [ discriminate H
          | injection H as <- <-;
            unfold Explain.serverKey, Explain.requestOf;
            cbn [Explain.r_aiProvider Explain.r_openaiKey Explain.r_geminiKey
                 Explain.providerName String.eqb Ascii.eqb Bool.eqb andb];
            rewrite ?Ho, ?Hg; intuition congruence ].
Qed.

(** ** File names *)

Lemma literalCI_not_whole (pat x : list ascii) :
  length x <> length pat -> literalCI pat x <> Some [].
Proof.
  intros Hlen H. apply literalCI_length in H. simpl in H. lia.
Qed.

Lemma stripExtList_suffix (ext : list ascii) :
  In ext (map list_ascii_of_string [".csv"; ".txt"; ".xlsx"; ".xls"]) ->
  forall base, stripExtList (base ++ ext) = base.
Proof.
  intros Hext base. induction base as [|c t IH].
  - cbn [app]. cbn [map In] in Hext.
    destruct Hext as [<- | [<- | [<- | [<- | []]]]]; reflexivity.
  - cbn [app stripExtList]. rewrite IH.
    destruct (literalCI [ascii_of_nat 46] (c :: t ++ ext)) as [rest|] eqn:Hdot;
      [|reflexivity].
    assert (Hrest : rest = t ++ ext).
    { cbn [literalCI] in Hdot. destruct (ciChar (ascii_of_nat 46) c); congruence. }
    subst rest.
    assert (H4 : 4 <= length (t ++ ext)).
    { rewrite length_app. cbn [map In] in Hext.
      destruct Hext as [<- | [<- | [<- | [<- | []]]]]; cbn; lia. }
    assert (Hx : literalCI (list_ascii_of_string "XLSX") (t ++ ext) <> Some []).
    { destruct t as [|d t'].
      - cbn [app]. cbn [map In] in Hext.
        destruct Hext as [<- | [<- | [<- | [<- | []]]]]; cbn; discriminate.
      - apply literalCI_not_whole. rewrite length_app. cbn [map In] in Hext.
        destruct Hext as [<- | [<- | [<- | [<- | []]]]]; cbn; lia. }
    pose proof (literalCI_not_whole (list_ascii_of_string "CSV") (t ++ ext)) as Hc.
    pose proof (literalCI_not_whole (list_ascii_of_string "TXT") (t ++ ext)) as Ht.
    pose proof (literalCI_not_whole (list_ascii_of_string "XLS") (t ++ ext)) as Hs.
    change (length (list_ascii_of_string "CSV")) with 3 in Hc.
    change (length (list_ascii_of_string "TXT")) with 3 in Ht.
    change (length (list_ascii_of_string "XLS")) with 3 in Hs.
    specialize (Hc ltac:(lia)). specialize (Ht ltac:(lia)). specialize (Hs ltac:(lia)).
    destruct (literalCI (list_ascii_of_string "CSV") (t ++ ext)) as [[|]|];
      destruct (literalCI (list_ascii_of_string "TXT") (t ++ ext)) as [[|]|];
      destruct (literalCI (list_ascii_of_string "XLSX") (t ++ ext)) as [[|]|];
      destruct (literalCI (list_ascii_of_string "XLS") (t ++ ext)) as [[|]|];
      congruence.
Qed.

Lemma list_ascii_app (a b : string) :
  list_ascii_of_string (a ++ b)%string
  = list_ascii_of_string a ++ list_ascii_of_string b.
Proof.
  induction a as [|c a IH]; [reflexivity|].
  cbn [String.append list_ascii_of_string app]. now f_equal.
Qed.

Lemma prefixb_split (p s : list ascii) :
  prefixb p s = true -> exists rest, s = p ++ rest.
Proof.
  revert s. induction p as [|c t IH]; intros s H; [now exists s|].
  destruct s as [|d s']; [discriminate|]. cbn [prefixb] in H.
  apply andb_true_iff in H. destruct H as [Hc Ht].
  apply Ascii.eqb_eq in Hc. subst d. destruct (IH _ Ht) as [rest ->].
  now exists rest.
Qed.

Lemma endsWith_split (name suffix : string) :
  Files.endsWith name suffix = true ->
  exists base, name = (base ++ suffix)%string.
Proof.
  unfold Files.endsWith. intros H. apply prefixb_split in H.
  destruct H as [rest Hr]. exists (string_of_list_ascii (rev rest)).
  apply string_list_inj. rewrite list_ascii_app, list_ascii_of_string_of_list_ascii.
  rewrite <- (rev_involutive (list_ascii_of_string name)), Hr.
  now rewrite rev_app_distr, rev_involutive.
Qed.

(** X15. The topic a file gives its questions by default is its name
    without the extension: for every name that ends in [.csv], [.txt],
    [.xlsx] or [.xls] the extension, and nothing else, is removed; so it is
    for every file that is read as a spreadsheet. *)
Theorem default_topic_is_the_file_name_without_extension :
  forall base : string,
    stripExt (base ++ ".csv") = base
    /\ stripExt (base ++ ".txt") = base
    /\ stripExt (base ++ ".xlsx") = base
    /\ stripExt (base ++ ".xls") = base
    /\ (forall name, Files.readAsExcel name = true ->
          exists stem, (name = (stem ++ ".xlsx")%string \/ name = (stem ++ ".xls")%string)
                       /\ stripExt name = stem).
Proof.
  assert (Hstrip : forall base ext,
             In ext [".csv"; ".txt"; ".xlsx"; ".xls"] ->
             stripExt (base ++ ext) = base).
  { intros base ext Hin. unfold stripExt. rewrite list_ascii_app.
    rewrite stripExtList_suffix; [apply string_of_list_ascii_of_string|].
    now apply in_map. }
  intros base.
  split; [apply Hstrip; cbn; tauto|].
  split; [apply Hstrip; cbn; tauto|].
  split; [apply Hstrip; cbn; tauto|].
  split; [apply Hstrip; cbn; tauto|].
  intros name H. unfold Files.readAsExcel in H. apply orb_true_iff in H.
  destruct H as [H | H]; apply endsWith_split in H; destruct H as [stem ->];
    exists stem; (split; [tauto | apply Hstrip; cbn; tauto]).
Qed.

(** ** Reach of the indexed answers *)

(** X16. An answer in the labelled or the lettered form reaches the first
    four options only: the statistics count a selection as correct only if
    its text stands at one of the positions 0 to 3, and the question card
    never marks a position outside them.  An answer in neither form is
    checked as a text alone, and then the two checks agree for every list
    of options. *)
Theorem indexed_answers_reach_four_options :
  forall (correctAnswer : string) (options : list string) (selected : string),
    (isLabeled (trim correctAnswer) = true \/ testBareLetter (trim correctAnswer) = true ->
     (statsIsCorrect correctAnswer options selected = true ->
      exists i, i < 4 /\ nth_error options i = Some selected)
     /\ (forall optionText index,
           (index < 0 \/ 4 <= index)%Z ->
           isOptionCorrect correctAnswer optionText index = false))
    /\ (isLabeled (trim correctAnswer) = false ->
        testBareLetter (trim correctAnswer) = false ->
        statsIsCorrect correctAnswer options selected
        = String.eqb (toLowerCase (trim selected)) (toLowerCase (trim correctAnswer))
        /\ cardIsCorrect correctAnswer options selected
           = statsIsCorrect correctAnswer options selected).
Proof.
  intros correctAnswer options selected.
  pose proof (labeled_agree (trim correctAnswer)) as HL.
  pose proof (bare_agree (trim correctAnswer)) as HB.
  split.
  - intros Hform.
    assert (Hidx : exists i : Z,
               (0 <= i <= 3)%Z
               /\ statsIsCorrect correctAnswer options selected
                  = strictEq (at_ options i) selected
               /\ forall optionText index,
                    isOptionCorrect correctAnswer optionText index = (index =? i)%Z).
    { unfold statsIsCorrect, isOptionCorrect.
      destruct (labeledForm (trim correctAnswer)) as [i|].
      - destruct HL as [-> [-> Hr]]. exists i. split; [exact Hr|].
        split; [|reflexivity].
        replace (0 <=? i)%Z with true by (symmetry; apply Z.leb_le; lia).
        reflexivity.
      - rewrite HL in *. destruct Hform as [H | H]; [discriminate|].
        destruct (bareForm (trim correctAnswer)) as [i|]; [|congruence].
        destruct HB as [-> [-> Hr]]. exists i. now repeat split. }
    destruct Hidx as [i [Hr [Hs Hc]]]. split.
    + rewrite Hs. unfold strictEq, at_.
      replace (i <? 0)%Z with false by (symmetry; apply Z.ltb_ge; lia).
      destruct (nth_error options (Z.to_nat i)) as [o|] eqn:Hn; [|discriminate].
      intros Heq. apply String.eqb_eq in Heq. subst o.
      exists (Z.to_nat i). split; [lia | exact Hn].
    + intros optionText index Hout. rewrite Hc. apply Z.eqb_neq. lia.
  - intros Hl Hb. unfold cardIsCorrect, isOptionCorrect, statsIsCorrect.
    rewrite Hl, Hb. split; [reflexivity | now destruct (String.eqb _ _)].
Qed.
